(** * tinyber: the Python BER codec runtime ([tinyber/codec.py])

    A shallow embedding of the reader ([Buf]), the writer ([Encoder]) and the
    TLV scope ([EncoderContext]) of [codec.py], followed by the properties of
    the length codec, the integer codec, the bounds checks and the writer
    invariant.

    Conventions of the embedding.
    - A Python 2 [str] is a [list byte]; a one-character string is a
      one-element list.  [chr], [ord], [len], indexing and slicing follow
      Python (negative indices included).
    - A Python [int]/[long] is a [Z]; [<<], [>>], [&], [|] are [Z.shiftl],
      [Z.shiftr], [Z.land], [Z.lor] (two's complement on unbounded integers,
      as in Python).
    - A method is a function from the object's state to an [outcome] and the
      state the call leaves behind.  An exception is [Raise e]; the
      exception's arguments are not modelled, only its class.
    - A [while] loop is a [Fixpoint] on a fuel counter; the method that runs
      the loop supplies fuel computed from its arguments, and the lemmas
      named [*_fuel] show that this fuel is never exhausted. *)

From Stdlib Require Import ZArith List Lia Bool Strings.Byte Strings.String.
Import ListNotations.
Open Scope Z_scope.

(** ** Exceptions and outcomes *)

(** The five exception classes of [codec.py] and the built-in exceptions the
    modelled code can raise. *)
Inductive exn : Type :=
| IndefiniteLength
| ElementTooLarge
| Underflow
| UnexpectedType
| ConstraintViolation
| IndexError
| ValueError
| OverflowError
| TypeError
| AttributeError.

Inductive outcome (A : Type) : Type :=
| Ok (a : A)
| Raise (e : exn)
| OutOfFuel.

Arguments Ok {A} a.
Arguments Raise {A} e.
Arguments OutOfFuel {A}.

(** Computations without state (built-in functions). *)
Definition obind {A B : Type} (o : outcome A) (k : A -> outcome B) : outcome B :=
  match o with
  | Ok a => k a
  | Raise e => Raise e
  | OutOfFuel => OutOfFuel
  end.

(** Methods of an object whose state has type [S]. *)
Definition M (S A : Type) : Type := S -> outcome A * S.

Definition ret {S A : Type} (a : A) : M S A := fun s => (Ok a, s).

Definition raise {S A : Type} (e : exn) : M S A := fun s => (Raise e, s).

Definition lift {S A : Type} (o : outcome A) : M S A := fun s => (o, s).

Definition bind {S A B : Type} (m : M S A) (k : A -> M S B) : M S B :=
  fun s =>
    match m s with
    | (Ok a, s') => k a s'
    | (Raise e, s') => (Raise e, s')
    | (OutOfFuel, s') => (OutOfFuel, s')
    end.

Declare Scope py_scope.
Delimit Scope py_scope with py.
Notation "x <- m ;; k" := (bind m (fun x => k))
  (at level 61, m at next level, right associativity) : py_scope.
Notation "m ;;; k" := (bind m (fun _ => k))
  (at level 61, right associativity) : py_scope.
Notation "x <~ o ;; k" := (obind o (fun x => k))
  (at level 61, o at next level, right associativity) : py_scope.
Open Scope py_scope.

(** ** Python built-ins *)

Definition str : Type := list byte.

Definition len (s : str) : Z := Z.of_nat (List.length s).

(** The range of a C [long].  CPython 2 parses the argument of [chr] as a C
    [long]: 64 bits on the LP64 platforms, taken here; where a [long] has 32
    bits the two bounds are [-2^31] and [2^31 - 1].  The properties below
    that speak of an argument of [chr] outside [range(256)] are stated so
    that they hold with either width. *)
Definition LONG_MIN : Z := -9223372036854775808.
Definition LONG_MAX : Z := 9223372036854775807.

(** [chr(n)]: the one-character string of code [n].  The argument is
    converted to a C [long] first, [OverflowError] when it does not fit;
    then [ValueError] outside [range(256)]. *)
Definition chr (n : Z) : outcome str :=
  if (LONG_MIN <=? n) && (n <=? LONG_MAX) then
    if (0 <=? n) && (n <? 256) then
      match Byte.of_N (Z.to_N n) with
      | Some b => Ok [b]
      | None => Raise ValueError
      end
    else Raise ValueError
  else Raise OverflowError.

(** The code of a character, [0 .. 255]. *)
Definition byte_val (b : byte) : Z := Z.of_N (Byte.to_N b).

(** [ord(s)]: the code of a one-character string; [TypeError] otherwise. *)
Definition ord (s : str) : outcome Z :=
  match s with
  | [b] => Ok (byte_val b)
  | _ => Raise TypeError
  end.

(** [s[i]]: a negative index counts from the end; [IndexError] out of range. *)
Definition getitem (s : str) (i : Z) : outcome str :=
  let i' := if i <? 0 then i + len s else i in
  if (0 <=? i') && (i' <? len s) then
    match nth_error s (Z.to_nat i') with
    | Some b => Ok [b]
    | None => Raise IndexError
    end
  else Raise IndexError.

(** The bound of a slice: negative values count from the end, and the result
    is clamped to [0 .. len s]. *)
Definition clamp (s : str) (i : Z) : Z :=
  let i' := if i <? 0 then i + len s else i in
  Z.max 0 (Z.min i' (len s)).

(** [s[i:j]]. *)
Definition slice (s : str) (i j : Z) : str :=
  let lo := clamp s i in
  let hi := clamp s j in
  firstn (Z.to_nat (hi - lo)) (skipn (Z.to_nat lo) s).

(** [''.join(r)]. *)
Definition join (r : list str) : str := List.concat r.

(** Truth value of an integer ([if n:], [while n:], [not n]). *)
Definition truthy (n : Z) : bool := negb (n =? 0).

(** A class used as a table of named constants; reading a name the class
    does not define raises [AttributeError]. *)
Definition class : Type := list (string * Z).

Fixpoint getattr (c : class) (name : string) : outcome Z :=
  match c with
  | [] => Raise AttributeError
  | (k, v) :: c' => if String.eqb k name then Ok v else getattr c' name
  end.

(** ** Constants: [class FLAG], [class TAG] *)

Definition FLAG : class :=
  [ ("UNIVERSAL"%string, 0x00);
    ("STRUCTURED"%string, 0x20);
    ("APPLICATION"%string, 0x40);
    ("CONTEXT"%string, 0x80) ].

(** [FLAG.STRUCTURED], as the body of [class TAG] reads it. *)
Definition FLAG_STRUCTURED : Z := 0x20.

Definition TAG : class :=
  [ ("BOOLEAN"%string, 0x01);
    ("INTEGER"%string, 0x02);
    ("BITSTRING"%string, 0x03);
    ("OCTETSTRING"%string, 0x04);
    ("NULLTAG"%string, 0x05);
    ("OID"%string, 0x06);
    ("ENUMERATED"%string, 0x0A);
    ("UTF8STRING"%string, 0x0C);
    ("SEQUENCE"%string, Z.lor 0x10 FLAG_STRUCTURED);
    ("SET"%string, Z.lor 0x11 FLAG_STRUCTURED) ].

(** ** [class Buf] *)

Module Buf.

Record t : Type := mk { data : str; pos : Z; end_ : Z }.

(** [Buf(data, pos=0, end=None)]. *)
Definition __init__ (data : str) (pos : option Z) (end_ : option Z) : t :=
  let pos := match pos with Some p => p | None => 0 end in
  let end_ := match end_ with Some e => e | None => len data end in
  mk data pos end_.

Definition set_pos (self : t) (p : Z) : t := mk (data self) p (end_ self).

Definition pop_byte : M t Z :=
  fun self =>
    if pos self + 1 >? end_ self then
      (Raise Underflow, self)
    else
      match (c <~ getitem (data self) (pos self) ;; ord c) with
      | Ok val => (Ok val, set_pos self (pos self + 1))
      | Raise e => (Raise e, self)
      | OutOfFuel => (OutOfFuel, self)
      end.

Definition pop (nbytes : Z) : M t t :=
  fun self =>
    if pos self + nbytes >? end_ self then
      (Raise Underflow, self)
    else
      let r := __init__ (data self) (Some (pos self)) (Some (pos self + nbytes)) in
      (Ok r, set_pos self (pos self + nbytes)).

Definition pop_bytes (nbytes : Z) : M t str :=
  fun self =>
    if pos self + nbytes >? end_ self then
      (Raise Underflow, self)
    else
      let result := slice (data self) (pos self) (pos self + nbytes) in
      (Ok result, set_pos self (pos self + nbytes)).

Definition done : M t bool :=
  fun self => (Ok (pos self =? end_ self), self).

(** The loop of [get_length]:
    [while lol: n = (n << 8) | self.pop_byte()].
    The body never changes [lol]. *)
Fixpoint get_length_loop (fuel : nat) (lol n : Z) : M t Z :=
  fun self =>
    if truthy lol then
      match fuel with
      | O => (OutOfFuel, self)
      | S fuel' =>
          (b <- pop_byte ;;
           get_length_loop fuel' lol (Z.lor (Z.shiftl n 8) b)) self
      end
    else (Ok n, self).

(** Fuel for a loop whose every iteration pops a byte: one more than the
    bytes left before [end]. *)
Definition fuel_of (self : t) : nat := S (Z.to_nat (end_ self - pos self)).

Definition get_length : M t Z :=
  val <- pop_byte ;;
  if val <? 0x80 then
    (* one-byte length *)
    ret val
  else if val =? 0x80 then
    raise IndefiniteLength
  else
    (* get length of length *)
    let lol := Z.land val 0x7f in
    if lol >? 4 then
      raise ElementTooLarge
    else
      fun self => get_length_loop (fuel_of self) lol 0 self.

Definition check (expected : Z) : M t unit :=
  tag <- pop_byte ;;
  if negb (tag =? expected) then raise UnexpectedType else ret tt.

Definition next (expected : Z) : M t t :=
  check expected ;;;
  length <- get_length ;;
  pop length.

(** The loop of [get_integer]:
    [while length: n = n << 8 | self.pop_byte(); length -= 1]. *)
Fixpoint get_integer_loop (fuel : nat) (length n : Z) : M t Z :=
  fun self =>
    if truthy length then
      match fuel with
      | O => (OutOfFuel, self)
      | S fuel' =>
          (b <- pop_byte ;;
           get_integer_loop fuel' (length - 1) (Z.lor (Z.shiftl n 8) b)) self
      end
    else (Ok n, self).

(** [get_integer] returns an [int], or Python's [None] (here [None]) when
    control leaves the function without reaching [return n]: the [while] loop
    and the [return] both sit in the [else] branch of [if n & 0x80]. *)
Definition get_integer (length : Z) : M t (option Z) :=
  if length =? 0 then
    ret (Some 0)
  else
    n <- pop_byte ;;
    let length := length - 1 in
    if truthy (Z.land n 0x80) then
      (* negative *)
      let n := n - 0x100 in
      ret None
    else
      fun self =>
        (n <- get_integer_loop (fuel_of self) length n ;;
         ret (Some n)) self.

(** Python 2 orders [None] below every number. *)
Definition py_lt (r : option Z) (bound : Z) : bool :=
  match r with
  | Some v => v <? bound
  | None => true
  end.

Definition py_gt (r : option Z) (bound : Z) : bool :=
  match r with
  | Some v => v >? bound
  | None => false
  end.

(** [x is not None and c x]. *)
Definition is_not_None_and {A : Type} (x : option A) (c : A -> bool) : bool :=
  match x with
  | Some v => c v
  | None => false
  end.

Definition next_INTEGER (min_val max_val : option Z) : M t (option Z) :=
  tag <- lift (getattr TAG "INTEGER") ;;
  check tag ;;;
  length <- get_length ;;
  r <- get_integer length ;;
  if is_not_None_and min_val (py_lt r) then
    raise ConstraintViolation
  else if is_not_None_and max_val (py_gt r) then
    raise ConstraintViolation
  else ret r.

Definition next_OCTET_STRING (min_size max_size : option Z) : M t str :=
  tag <- lift (getattr TAG "OCTETSTRING") ;;
  check tag ;;;
  length <- get_length ;;
  r <- pop_bytes length ;;
  if is_not_None_and min_size (fun m => len r <? m) then
    raise ConstraintViolation
  else if is_not_None_and max_size (fun m => len r >? m) then
    raise ConstraintViolation
  else ret r.

Definition next_BOOLEAN : M t bool :=
  tag <- lift (getattr TAG "BOOLEAN") ;;
  check tag ;;;
  b <- pop_byte ;;
  ret (negb (b =? 0)).

Definition next_ENUMERATED : M t (option Z) :=
  tag <- lift (getattr TAG "ENUMERATED") ;;
  check tag ;;;
  length <- get_length ;;
  get_integer length.

(** The source reads [FLAG.APPLICAITON], a name [class FLAG] does not
    define. *)
Definition next_APPLICATION : M t (Z * t) :=
  tag <- pop_byte ;;
  flag <- lift (getattr FLAG "APPLICAITON") ;;
  if negb (truthy (Z.land tag flag)) then
    raise UnexpectedType
  else
    length <- get_length ;;
    r <- pop length ;;
    ret (Z.land tag 0x1f, r).

End Buf.

(** ** [class Encoder] *)

Module Encoder.

Record t : Type := mk { r : list str; length : Z }.

Definition __init__ : t := mk [] 0.

(** [self.r.insert (0, data); self.length += len(data)]. *)
Definition emit (data : str) : M t unit :=
  fun self => (Ok tt, mk (data :: r self) (length self + len data)).

(** The loop of [emit_length]:
    [while n: r.insert (0, chr (n & 0xff)); n >>= 8]. *)
Fixpoint emit_length_loop (fuel : nat) (n : Z) (r : list str) : outcome (list str) :=
  if truthy n then
    match fuel with
    | O => OutOfFuel
    | S fuel' =>
        c <~ chr (Z.land n 0xff) ;;
        emit_length_loop fuel' (Z.shiftr n 8) (c :: r)
    end
  else Ok r.

Definition emit_length (n : Z) : M t unit :=
  if n <? 0x80 then
    c <- lift (chr n) ;;
    emit c
  else
    let r := [] in
    b0 <- lift (chr (Z.lor 0x80 (Z.land (n - 1) 0x7f))) ;;
    r <- lift (emit_length_loop (S (Z.to_nat (Z.log2 n))) n r) ;;
    let r := b0 :: r in
    emit (join r).

Definition done : M t str :=
  fun self => (Ok (join (r self)), self).

(** The loop of [emit_integer] ([while 1:]); [n] is the value before
    [n >>= 8]. *)
Fixpoint emit_integer_loop (fuel : nat) (n n0 byte i : Z) (r : list str)
  : outcome (list str) :=
  match fuel with
  | O => OutOfFuel
  | S fuel' =>
      let n := Z.shiftr n 8 in
      if n0 =? n then
        if (n =? -1) && (negb (truthy (Z.land byte 0x80)) || (i =? 0)) then
          (* negative, but high bit clear *)
          c <~ chr 0xff ;;
          Ok (c :: r)
        else if (n =? 0) && truthy (Z.land byte 0x80) then
          (* positive, but high bit set *)
          c <~ chr 0x00 ;;
          Ok (c :: r)
        else Ok r
      else
        let byte := Z.land n0 0xff in
        c <~ chr byte ;;
        emit_integer_loop fuel' n n byte (i + 1) (c :: r)
  end.

(** encode an integer, ASN1 style.
    two's complement with the minimum number of bytes. *)
Definition emit_integer (n : Z) : M t unit :=
  let i := 0 in
  let n0 := n in
  let byte := 0x80 in
  let r := [] in
  r <- lift (emit_integer_loop (S (S (Z.to_nat (Z.log2 (Z.abs n))))) n n0 byte i r) ;;
  emit (join r).

End Encoder.

(** ** [class EncoderContext] *)

Module EncoderContext.

(** The context's [enc] field is a reference to the encoder the scope was
    opened on: the encoder is the state the methods below run in. *)
Record t : Type := mk { tag : Z; pos : Z }.

Definition __init__ (tag : Z) : M Encoder.t t :=
  fun enc => (Ok (mk tag (Encoder.length enc)), enc).

Definition __enter__ (self : t) : M Encoder.t unit := ret tt.

(** [__exit__ (self, t, v, tb)]: the exception triple is not looked at, and
    the method returns [None]. *)
Definition __exit__ (self : t) (exc : option exn) : M Encoder.t unit :=
  (fun enc => Encoder.emit_length (Encoder.length enc - pos self) enc) ;;;
  c <- lift (chr (tag self)) ;;
  Encoder.emit c.

End EncoderContext.

(** [Encoder.TLV]. *)
Definition TLV (tag : Z) : M Encoder.t EncoderContext.t :=
  EncoderContext.__init__ tag.

(** The statement [with mgr: body].  [__exit__] runs when the body returns
    and when it raises; it returns [None] here, so an exception of the body is
    raised again once [__exit__] has returned, and an exception of [__exit__]
    itself replaces it. *)
Definition with_ {A : Type} (mgr : M Encoder.t EncoderContext.t)
  (body : M Encoder.t A) : M Encoder.t A :=
  ctx <- mgr ;;
  EncoderContext.__enter__ ctx ;;;
  fun enc =>
    match body enc with
    | (Ok v, enc') =>
        (EncoderContext.__exit__ ctx None ;;; ret v) enc'
    | (Raise e, enc') =>
        (EncoderContext.__exit__ ctx (Some e) ;;; raise e) enc'
    | (OutOfFuel, enc') => (OutOfFuel, enc')
    end.

(** [Encoder.emit_INTEGER]. *)
Definition emit_INTEGER (n : Z) : M Encoder.t unit :=
  tag <- lift (getattr TAG "INTEGER") ;;
  with_ (TLV tag) (Encoder.emit_integer n).

(** ** The codec as the tests drive it

    [encode_*] runs one writer method on a fresh [Encoder] and takes
    [done()]; [decode_*] runs one reader method on a fresh [Buf] over the
    whole string. *)

Definition encode_integer (n : Z) : outcome str :=
  fst ((Encoder.emit_integer n ;;; Encoder.done) Encoder.__init__).

Definition decode_integer (s : str) : outcome (option Z) :=
  fst (Buf.get_integer (len s) (Buf.__init__ s None None)).

Definition encode_length (n : Z) : outcome str :=
  fst ((Encoder.emit_length n ;;; Encoder.done) Encoder.__init__).

Definition decode_length (s : str) : outcome Z :=
  fst (Buf.get_length (Buf.__init__ s None None)).

(** ** Invariants and reference notions *)

(** [0 <= pos <= end <= length(data)]. *)
Definition reader_inv (self : Buf.t) : Prop :=
  0 <= Buf.pos self /\ Buf.pos self <= Buf.end_ self /\
  Buf.end_ self <= len (Buf.data self).

(** [sum(len(c) for c in chunks)]. *)
Definition sum_len (chunks : list str) : Z :=
  fold_right (fun c acc => len c + acc) 0 chunks.

(** [total_length == sum(len(c) for c in chunks)]. *)
Definition writer_inv (self : Encoder.t) : Prop :=
  Encoder.length self = sum_len (Encoder.r self).

(** The bytes of a string read as a big-endian natural number. *)
Definition unsigned_be (s : str) : Z :=
  fold_left (fun acc b => acc * 256 + byte_val b) s 0.

(** Big-endian two's complement: the first byte is the most significant one
    and carries the sign; the other bytes are folded in as
    [acc * 256 + byte]. *)
Definition twos_complement (s : str) : Z :=
  match s with
  | [] => 0
  | b :: rest =>
      fold_left (fun acc c => acc * 256 + byte_val c) rest
        (if byte_val b >=? 128 then byte_val b - 256 else byte_val b)
  end.

(** A leading [0x00] before a byte with the high bit clear, or a leading
    [0xff] before a byte with the high bit set, carries no information. *)
Definition redundant_lead (s : str) : bool :=
  match s with
  | b0 :: b1 :: _ =>
      ((byte_val b0 =? 0) && (byte_val b1 <? 128)) ||
      ((byte_val b0 =? 255) && (byte_val b1 >=? 128))
  | _ => false
  end.

Definition minimal (s : str) : bool :=
  match s with
  | [] => false
  | _ => negb (redundant_lead s)
  end.

(** Replace what lies at or beyond [end] in the backing string by [junk]. *)
Definition beyond_end (self : Buf.t) (junk : str) : Buf.t :=
  Buf.mk (firstn (Z.to_nat (Buf.end_ self)) (Buf.data self) ++ junk)
    (Buf.pos self) (Buf.end_ self).

(** The cursor and the bound of a reader. *)
Definition window (self : Buf.t) : Z * Z := (Buf.pos self, Buf.end_ self).

(** The outcome of [pop] with the sub-reader replaced by its cursor and
    bound. *)
Definition window_of (o : outcome Buf.t) : outcome (Z * Z) :=
  match o with
  | Ok r => Ok (window r)
  | Raise e => Raise e
  | OutOfFuel => OutOfFuel
  end.

(** The one-character strings of a string, in order. *)
Definition chars (s : str) : list str := map (fun b => [b]) s.

(** What the loop of [emit_integer] knows when it is about to shift [n0]:
    nothing was emitted yet ([i = 0], [byte] still [0x80]), or [low] starts
    with the byte emitted last, [byte], which was taken from a value that was
    neither [0] nor [-1]. *)
Definition loop_head (n0 byte i : Z) (low : str) : Prop :=
  0 <= i /\
  (i = 0 -> low = [] /\ byte = 0x80) /\
  (0 < i -> exists b rest,
      low = b :: rest /\ byte = byte_val b /\
      n0 * 256 + byte <> 0 /\ n0 * 256 + byte <> -1).

(** ** Notions for the properties of whole elements *)

(** [self.data[self.pos:self.end]]: the bytes the reader has not read
    yet. *)
Definition remaining (self : Buf.t) : str :=
  slice (Buf.data self) (Buf.pos self) (Buf.end_ self).

(** The reader over [pre ++ rem ++ post] whose cursor stands after [pre] and
    whose bound stands before [post]. *)
Definition reader_at (pre rem post : str) : Buf.t :=
  Buf.mk (pre ++ rem ++ post) (len pre) (len pre + len rem).

(** A call left the backing string and the bound alone and did not move the
    cursor backwards. *)
Definition advances (self self' : Buf.t) : Prop :=
  Buf.data self' = Buf.data self /\ Buf.end_ self' = Buf.end_ self /\
  Buf.pos self <= Buf.pos self'.

(** A method keeps the reader invariant, only moves the cursor forwards, and
    what it returns satisfies [Q]. *)
Definition keeps {A : Type} (Q : A -> Prop) (m : M Buf.t A) : Prop :=
  forall self, reader_inv self ->
    reader_inv (snd (m self)) /\ advances self (snd (m self)) /\
    forall a, fst (m self) = Ok a -> Q a.

(** [for c in chunks: enc.emit(c)]. *)
Fixpoint emit_all (chunks : list str) : M Encoder.t unit :=
  match chunks with
  | [] => ret tt
  | c :: chunks' => Encoder.emit c ;;; emit_all chunks'
  end.

(** Bring nested appends to one right-nested form. *)
Ltac reassoc := repeat (progress (cbn [app]; rewrite <- ?app_assoc)).

(** * Properties *)

(** ** Built-ins *)

Lemma byte_val_range (b : byte) : 0 <= byte_val b < 256.
Proof.
  unfold byte_val. pose proof (Byte.to_N_bounded b). lia.
Qed.

Lemma fits_long (n : Z) :
  LONG_MIN <= n <= LONG_MAX -> (LONG_MIN <=? n) && (n <=? LONG_MAX) = true.
Proof.
  intros H. apply andb_true_iff. split; apply Z.leb_le; lia.
Qed.

Lemma chr_byte_val (b : byte) : chr (byte_val b) = Ok [b].
Proof.
  unfold chr. pose proof (byte_val_range b) as H.
  rewrite fits_long by (unfold LONG_MIN, LONG_MAX; lia).
  replace ((0 <=? byte_val b) && (byte_val b <? 256)) with true
    by (symmetry; apply andb_true_iff; split; [apply Z.leb_le | apply Z.ltb_lt]; lia).
  unfold byte_val. rewrite N2Z.id, Byte.of_to_N. reflexivity.
Qed.

Lemma chr_in_range (n : Z) :
  0 <= n < 256 -> exists b, chr n = Ok [b] /\ byte_val b = n.
Proof.
  intros H. unfold chr.
  rewrite fits_long by (unfold LONG_MIN, LONG_MAX; lia).
  replace ((0 <=? n) && (n <? 256)) with true
    by (symmetry; apply andb_true_iff; split; [apply Z.leb_le | apply Z.ltb_lt]; lia).
  destruct (Byte.of_N (Z.to_N n)) as [b|] eqn:E.
  - exists b. split; [reflexivity|].
    unfold byte_val. apply Byte.to_of_N in E. rewrite E. lia.
  - apply Byte.of_N_None_iff in E. lia.
Qed.

(** Outside [range(256)] [chr] raises: [ValueError] when the argument fits
    in a C [long], [OverflowError] when it does not. *)
Lemma chr_out_of_range (n : Z) :
  n < 0 \/ 256 <= n ->
  chr n = Raise (if (LONG_MIN <=? n) && (n <=? LONG_MAX)
                 then ValueError else OverflowError).
Proof.
  intros H. unfold chr.
  destruct ((LONG_MIN <=? n) && (n <=? LONG_MAX)); [|reflexivity].
  destruct (0 <=? n) eqn:E1; [|reflexivity].
  destruct (n <? 256) eqn:E2; [|reflexivity].
  apply Z.leb_le in E1. apply Z.ltb_lt in E2. lia.
Qed.

(** With a [long] of 32 bits or of 64, an argument in [-2^31 .. 2^31 - 1]
    fits. *)
Lemma chr_ValueError (n : Z) :
  -2 ^ 31 <= n < 2 ^ 31 -> n < 0 \/ 256 <= n -> chr n = Raise ValueError.
Proof.
  intros Hfit H. rewrite chr_out_of_range by exact H.
  rewrite fits_long; [reflexivity|].
  unfold LONG_MIN, LONG_MAX. change (2 ^ 31) with 2147483648 in Hfit. lia.
Qed.

Lemma len_nonneg (s : str) : 0 <= len s.
Proof. unfold len. lia. Qed.

Lemma len_app (s1 s2 : str) : len (s1 ++ s2) = len s1 + len s2.
Proof. unfold len. rewrite length_app. lia. Qed.

Lemma len_cons (b : byte) (s : str) : len (b :: s) = 1 + len s.
Proof. unfold len. simpl List.length. lia. Qed.

Lemma getitem_in_range (s : str) (i : Z) :
  0 <= i < len s ->
  exists b, nth_error s (Z.to_nat i) = Some b /\ getitem s i = Ok [b].
Proof.
  intros H. unfold getitem.
  replace (i <? 0) with false by (symmetry; apply Z.ltb_ge; lia).
  replace ((0 <=? i) && (i <? len s)) with true
    by (symmetry; apply andb_true_iff; split; [apply Z.leb_le | apply Z.ltb_lt]; lia).
  destruct (nth_error s (Z.to_nat i)) as [b|] eqn:E.
  - exists b. split; reflexivity.
  - apply nth_error_None in E. unfold len in H. lia.
Qed.

(** ** The reader's three primitive operations *)

Lemma pop_byte_underflow (self : Buf.t) :
  Buf.end_ self - Buf.pos self < 1 ->
  Buf.pop_byte self = (Raise Underflow, self).
Proof.
  intros H. unfold Buf.pop_byte.
  destruct (Z.gtb_spec (Buf.pos self + 1) (Buf.end_ self)); [reflexivity | lia].
Qed.

Lemma pop_byte_in_range (self : Buf.t) :
  reader_inv self -> Buf.pos self < Buf.end_ self ->
  exists b,
    nth_error (Buf.data self) (Z.to_nat (Buf.pos self)) = Some b /\
    Buf.pop_byte self = (Ok (byte_val b), Buf.set_pos self (Buf.pos self + 1)).
Proof.
  intros (H0 & H1 & H2) Hlt. unfold Buf.pop_byte.
  destruct (Z.gtb_spec (Buf.pos self + 1) (Buf.end_ self)); [lia|].
  destruct (getitem_in_range (Buf.data self) (Buf.pos self)) as (b & Hn & Hg);
    [lia|].
  exists b. split; [exact Hn|]. rewrite Hg. reflexivity.
Qed.

Lemma pop_byte_cases (self : Buf.t) :
  (exists v, Buf.pop_byte self = (Ok v, Buf.set_pos self (Buf.pos self + 1)) /\
             Buf.pos self < Buf.end_ self /\ 0 <= v < 256) \/
  (exists e, Buf.pop_byte self = (Raise e, self)).
Proof.
  unfold Buf.pop_byte.
  destruct (Z.gtb_spec (Buf.pos self + 1) (Buf.end_ self)).
  - right. eexists. reflexivity.
  - assert (Buf.pos self < Buf.end_ self) by lia.
    unfold getitem.
    destruct ((0 <=? _) && (_ <? _)); [|right; eexists; reflexivity].
    destruct (nth_error _ _) as [b|]; [|right; eexists; reflexivity].
    left. exists (byte_val b). simpl. repeat split; try assumption;
      apply byte_val_range.
Qed.

Lemma pop_underflow (n : Z) (self : Buf.t) :
  Buf.end_ self - Buf.pos self < n ->
  Buf.pop n self = (Raise Underflow, self).
Proof.
  intros H. unfold Buf.pop.
  destruct (Z.gtb_spec (Buf.pos self + n) (Buf.end_ self)); [reflexivity | lia].
Qed.

Lemma pop_bytes_underflow (n : Z) (self : Buf.t) :
  Buf.end_ self - Buf.pos self < n ->
  Buf.pop_bytes n self = (Raise Underflow, self).
Proof.
  intros H. unfold Buf.pop_bytes.
  destruct (Z.gtb_spec (Buf.pos self + n) (Buf.end_ self)); [reflexivity | lia].
Qed.

Lemma pop_in_range (n : Z) (self : Buf.t) :
  Buf.pos self + n <= Buf.end_ self ->
  Buf.pop n self =
    (Ok (Buf.mk (Buf.data self) (Buf.pos self) (Buf.pos self + n)),
     Buf.set_pos self (Buf.pos self + n)).
Proof.
  intros H. unfold Buf.pop.
  destruct (Z.gtb_spec (Buf.pos self + n) (Buf.end_ self)); [lia | reflexivity].
Qed.

Lemma pop_bytes_in_range (n : Z) (self : Buf.t) :
  Buf.pos self + n <= Buf.end_ self ->
  Buf.pop_bytes n self =
    (Ok (slice (Buf.data self) (Buf.pos self) (Buf.pos self + n)),
     Buf.set_pos self (Buf.pos self + n)).
Proof.
  intros H. unfold Buf.pop_bytes.
  destruct (Z.gtb_spec (Buf.pos self + n) (Buf.end_ self)); [lia | reflexivity].
Qed.

Lemma clamp_in_range (s : str) (i : Z) : 0 <= i <= len s -> clamp s i = i.
Proof.
  intros H. unfold clamp.
  destruct (Z.ltb_spec i 0); lia.
Qed.

(** Inside the string, a slice is the plain sub-list. *)
Lemma slice_in_range (s : str) (i n : Z) :
  0 <= i -> 0 <= n -> i + n <= len s ->
  slice s i (i + n) = firstn (Z.to_nat n) (skipn (Z.to_nat i) s).
Proof.
  intros Hi Hn H. unfold slice.
  rewrite !clamp_in_range by lia.
  f_equal. f_equal. lia.
Qed.

Lemma len_firstn (k : Z) (s : str) :
  0 <= k <= len s -> len (firstn (Z.to_nat k) s) = k.
Proof.
  intros H. unfold len in *. rewrite length_firstn. lia.
Qed.

(** The first [e] bytes decide every sub-list that ends at or before [e]. *)
Lemma sublist_prefix (s junk : str) (e i n : Z) :
  0 <= i -> 0 <= n -> i + n <= e -> e <= len s ->
  firstn (Z.to_nat n) (skipn (Z.to_nat i) (firstn (Z.to_nat e) s ++ junk)) =
  firstn (Z.to_nat n) (skipn (Z.to_nat i) s).
Proof.
  intros Hi Hn Hin He.
  assert (Hl : List.length (firstn (Z.to_nat e) s) = Z.to_nat e)
    by (rewrite length_firstn; unfold len in He; lia).
  rewrite skipn_app, firstn_app, length_skipn, Hl.
  replace (Z.to_nat n - (Z.to_nat e - Z.to_nat i))%nat with 0%nat by lia.
  rewrite firstn_O, app_nil_r.
  replace (Z.to_nat e) with (Z.to_nat i + (Z.to_nat e - Z.to_nat i))%nat by lia.
  rewrite <- firstn_skipn_comm, firstn_firstn.
  f_equal. lia.
Qed.

Lemma nth_error_prefix (s junk : str) (e i : Z) :
  0 <= i < e -> e <= len s ->
  nth_error (firstn (Z.to_nat e) s ++ junk) (Z.to_nat i) =
  nth_error s (Z.to_nat i).
Proof.
  intros Hi He.
  rewrite nth_error_app1
    by (rewrite length_firstn; unfold len in He; lia).
  rewrite nth_error_firstn.
  destruct (Nat.ltb_spec (Z.to_nat i) (Z.to_nat e)); [reflexivity | lia].
Qed.

Lemma beyond_end_inv (self : Buf.t) (junk : str) :
  reader_inv self -> reader_inv (beyond_end self junk).
Proof.
  intros (H0 & H1 & H2). unfold reader_inv, beyond_end. simpl.
  rewrite len_app, len_firstn by lia.
  pose proof (len_nonneg junk). lia.
Qed.

Lemma pop_byte_beyond_end (self : Buf.t) (junk : str) :
  reader_inv self ->
  fst (Buf.pop_byte (beyond_end self junk)) = fst (Buf.pop_byte self) /\
  window (snd (Buf.pop_byte (beyond_end self junk))) =
  window (snd (Buf.pop_byte self)).
Proof.
  intros Hinv. pose proof (beyond_end_inv self junk Hinv) as Hinv'.
  destruct (Z.lt_ge_cases (Buf.pos self) (Buf.end_ self)) as [Hlt|Hge].
  - destruct (pop_byte_in_range self Hinv Hlt) as (b & Hb & ->).
    destruct (pop_byte_in_range (beyond_end self junk) Hinv' Hlt)
      as (b' & Hb' & ->).
    simpl in Hb'. destruct Hinv as (H0 & H1 & H2).
    rewrite nth_error_prefix in Hb' by lia.
    assert (b' = b) by congruence. subst b'. split; reflexivity.
  - rewrite (pop_byte_underflow self) by lia.
    rewrite (pop_byte_underflow (beyond_end self junk)) by (simpl; lia).
    split; reflexivity.
Qed.

Lemma pop_bytes_beyond_end (self : Buf.t) (junk : str) (n : Z) :
  reader_inv self -> 0 <= n ->
  fst (Buf.pop_bytes n (beyond_end self junk)) = fst (Buf.pop_bytes n self) /\
  window (snd (Buf.pop_bytes n (beyond_end self junk))) =
  window (snd (Buf.pop_bytes n self)).
Proof.
  intros Hinv Hn. pose proof (beyond_end_inv self junk Hinv) as Hinv'.
  destruct (Z.le_gt_cases (Buf.pos self + n) (Buf.end_ self)) as [Hle|Hgt].
  - rewrite (pop_bytes_in_range n self) by lia.
    rewrite (pop_bytes_in_range n (beyond_end self junk)) by (simpl; lia).
    destruct Hinv as (H0 & H1 & H2). destruct Hinv' as (H0' & H1' & H2').
    simpl in *. split; [|reflexivity].
    rewrite !slice_in_range by lia.
    rewrite (sublist_prefix _ _ (Buf.end_ self)) by lia. reflexivity.
  - rewrite (pop_bytes_underflow n self) by lia.
    rewrite (pop_bytes_underflow n (beyond_end self junk)) by (simpl; lia).
    split; reflexivity.
Qed.

Lemma pop_beyond_end (self : Buf.t) (junk : str) (n : Z) :
  window_of (fst (Buf.pop n (beyond_end self junk))) =
  window_of (fst (Buf.pop n self)) /\
  window (snd (Buf.pop n (beyond_end self junk))) =
  window (snd (Buf.pop n self)).
Proof.
  unfold Buf.pop. simpl.
  destruct (Buf.pos self + n >? Buf.end_ self); split; reflexivity.
Qed.

(** C5.  Bounds safety of [pop_byte], [pop] and [pop_bytes] on a reader with
    [0 <= pos <= end <= len(data)]: a request for more bytes than remain
    before [end] raises [Underflow]; a successful call takes its bytes from
    positions [pos .. end-1] only (the byte at [pos < end], the [n] bytes
    from [pos] with [pos + n <= end], a sub-reader inside [pos .. end]); and
    what the backing string holds at or beyond [end] changes neither the
    result nor the cursor. *)
Theorem Buf_bounds_safety (self : Buf.t) :
  reader_inv self ->
  (Buf.end_ self - Buf.pos self < 1 ->
     Buf.pop_byte self = (Raise Underflow, self)) /\
  (forall n, 0 <= n -> Buf.end_ self - Buf.pos self < n ->
     Buf.pop n self = (Raise Underflow, self) /\
     Buf.pop_bytes n self = (Raise Underflow, self)) /\
  (forall v self', Buf.pop_byte self = (Ok v, self') ->
     Buf.pos self < Buf.end_ self /\
     exists b, nth_error (Buf.data self) (Z.to_nat (Buf.pos self)) = Some b /\
               v = byte_val b) /\
  (forall n s self', 0 <= n -> Buf.pop_bytes n self = (Ok s, self') ->
     Buf.pos self + n <= Buf.end_ self /\
     s = firstn (Z.to_nat n) (skipn (Z.to_nat (Buf.pos self)) (Buf.data self))) /\
  (forall n r self', 0 <= n -> Buf.pop n self = (Ok r, self') ->
     Buf.data r = Buf.data self /\
     Buf.pos self = Buf.pos r /\ Buf.pos r + n = Buf.end_ r /\
     Buf.end_ r <= Buf.end_ self) /\
  (forall junk,
     fst (Buf.pop_byte (beyond_end self junk)) = fst (Buf.pop_byte self) /\
     window (snd (Buf.pop_byte (beyond_end self junk))) =
       window (snd (Buf.pop_byte self)) /\
     forall n, 0 <= n ->
       fst (Buf.pop_bytes n (beyond_end self junk)) = fst (Buf.pop_bytes n self) /\
       window (snd (Buf.pop_bytes n (beyond_end self junk))) =
         window (snd (Buf.pop_bytes n self)) /\
       window_of (fst (Buf.pop n (beyond_end self junk))) =
         window_of (fst (Buf.pop n self)) /\
       window (snd (Buf.pop n (beyond_end self junk))) =
         window (snd (Buf.pop n self))).
Proof.
  intros Hinv.
  split; [|split; [|split; [|split; [|split]]]].
  - apply pop_byte_underflow.
  - intros n Hn Hshort. split.
    + apply pop_underflow, Hshort.
    + apply pop_bytes_underflow, Hshort.
  - intros v self' E.
    destruct (Z.lt_ge_cases (Buf.pos self) (Buf.end_ self)) as [Hlt|Hge].
    + split; [exact Hlt|].
      destruct (pop_byte_in_range self Hinv Hlt) as (b & Hb & E').
      rewrite E' in E. injection E as <- _.
      exists b. split; [exact Hb | reflexivity].
    + rewrite pop_byte_underflow in E by lia. discriminate.
  - intros n s self' Hn E.
    destruct (Z.le_gt_cases (Buf.pos self + n) (Buf.end_ self)) as [Hle|Hgt].
    + split; [exact Hle|].
      rewrite pop_bytes_in_range in E by lia. injection E as <- _.
      destruct Hinv as (H0 & H1 & H2). apply slice_in_range; lia.
    + rewrite pop_bytes_underflow in E by lia. discriminate.
  - intros n r self' Hn E.
    destruct (Z.le_gt_cases (Buf.pos self + n) (Buf.end_ self)) as [Hle|Hgt].
    + rewrite pop_in_range in E by lia. injection E as <- _. simpl.
      repeat split; lia.
    + rewrite pop_underflow in E by lia. discriminate.
  - intros junk.
    split; [apply pop_byte_beyond_end, Hinv|].
    split; [apply pop_byte_beyond_end, Hinv|].
    intros n Hn.
    split; [apply pop_bytes_beyond_end; assumption|].
    split; [apply pop_bytes_beyond_end; assumption|].
    apply pop_beyond_end.
Qed.

Lemma Buf_bounds_safety_witness :
  let self := Buf.mk [x01; x02; x03] 1 2 in
  reader_inv self /\
  Buf.pop 2 self = (Raise Underflow, self) /\
  Buf.pop_bytes 2 self = (Raise Underflow, self) /\
  fst (Buf.pop_byte (Buf.mk [x01; x02; xff; xff] 1 2)) = fst (Buf.pop_byte self).
Proof.
  cbv zeta.
  assert (Hinv : reader_inv (Buf.mk [x01; x02; x03] 1 2))
    by (unfold reader_inv, len; simpl; lia).
  destruct (Buf_bounds_safety _ Hinv) as (_ & Hpop & _ & _ & _ & Hjunk).
  split; [exact Hinv|].
  split; [apply (Hpop 2); simpl; lia|].
  split; [apply (proj2 (Hpop 2 ltac:(lia) ltac:(simpl; lia)))|].
  exact (proj1 (Hjunk [xff; xff])).
Defined.

(** C10.  When [pop_byte], [pop(n)] or [pop_bytes(n)] raises [Underflow], the
    reader is left as it was: [data], [pos] and [end] are those of before the
    call. *)
Theorem Buf_underflow_leaves_state (self self' : Buf.t) :
  (Buf.pop_byte self = (Raise Underflow, self') -> self' = self) /\
  (forall n, Buf.pop n self = (Raise Underflow, self') -> self' = self) /\
  (forall n, Buf.pop_bytes n self = (Raise Underflow, self') -> self' = self).
Proof.
  split; [|split].
  - intros E. destruct (pop_byte_cases self) as [(v & E' & _)|(e & E')];
      rewrite E' in E.
    + discriminate.
    + injection E as _ <-. reflexivity.
  - intros n. unfold Buf.pop.
    destruct (Buf.pos self + n >? Buf.end_ self); intros E.
    + injection E as <-. reflexivity.
    + discriminate.
  - intros n. unfold Buf.pop_bytes.
    destruct (Buf.pos self + n >? Buf.end_ self); intros E.
    + injection E as <-. reflexivity.
    + discriminate.
Qed.

Lemma Buf_underflow_leaves_state_witness :
  let self := Buf.mk [x01; x02; x03] 2 3 in
  Buf.pop 2 self = (Raise Underflow, self) /\
  snd (Buf.pop 2 self) = self /\
  snd (Buf.pop_bytes 2 self) = self /\
  snd (Buf.pop_byte (Buf.mk [x01; x02; x03] 3 3)) = Buf.mk [x01; x02; x03] 3 3.
Proof.
  cbv zeta.
  split; [reflexivity|].
  split; [|split].
  - apply (proj1 (proj2 (Buf_underflow_leaves_state
                            (Buf.mk [x01; x02; x03] 2 3) _)) 2).
    reflexivity.
  - apply (proj2 (proj2 (Buf_underflow_leaves_state
                            (Buf.mk [x01; x02; x03] 2 3) _)) 2).
    reflexivity.
  - apply (proj1 (Buf_underflow_leaves_state
                    (Buf.mk [x01; x02; x03] 3 3) _)).
    reflexivity.
Defined.

(** ** Integer operators *)

Lemma land_0xff (n : Z) : Z.land n 0xff = n mod 256.
Proof. change 0xff with (Z.ones 8). rewrite Z.land_ones by lia. reflexivity. Qed.

Lemma shiftr_8 (n : Z) : Z.shiftr n 8 = n / 256.
Proof. rewrite Z.shiftr_div_pow2 by lia. reflexivity. Qed.

Lemma land_shiftl_low (n b k : Z) :
  0 <= k -> 0 <= b < 2 ^ k -> Z.land (Z.shiftl n k) b = 0.
Proof.
  intros Hk Hb. apply Z.bits_inj'. intros i Hi.
  rewrite Z.land_spec, Z.bits_0.
  destruct (Z.lt_ge_cases i k).
  - rewrite Z.shiftl_spec_low by lia. reflexivity.
  - rewrite <- (Z.mod_small b (2 ^ k)) by lia.
    rewrite Z.mod_pow2_bits_high by lia. apply andb_false_r.
Qed.

Lemma lor_shiftl_low (n b k : Z) :
  0 <= k -> 0 <= b < 2 ^ k -> Z.lor (Z.shiftl n k) b = n * 2 ^ k + b.
Proof.
  intros Hk Hb.
  rewrite <- Z.lxor_lor, <- Z.add_nocarry_lxor
    by (apply land_shiftl_low; assumption).
  rewrite Z.shiftl_mul_pow2 by lia. reflexivity.
Qed.

(** [n << 8 | b] is [n * 256 + b] for a byte [b]. *)
Lemma lor_shiftl_8 (n b : Z) :
  0 <= b < 256 -> Z.lor (Z.shiftl n 8) b = n * 256 + b.
Proof. intros Hb. apply (lor_shiftl_low n b 8); [lia | exact Hb]. Qed.

(** [0x80 | x] is [128 + x] for [x] of seven bits. *)
Lemma lor_0x80 (x : Z) : 0 <= x < 128 -> Z.lor 0x80 x = 128 + x.
Proof.
  intros Hx. change 0x80 with (Z.shiftl 1 7).
  rewrite lor_shiftl_low by (change (2 ^ 7) with 128; lia).
  reflexivity.
Qed.

Lemma land_0x7f (n : Z) : Z.land n 0x7f = n mod 128.
Proof. change 0x7f with (Z.ones 7). rewrite Z.land_ones by lia. reflexivity. Qed.

(** [b & 0x80] is the sign bit of a byte. *)
Lemma high_bit_byte (b : byte) :
  truthy (Z.land (byte_val b) 0x80) = (byte_val b >=? 128).
Proof. destruct b; reflexivity. Qed.

Lemma truthy_true (n : Z) : n <> 0 -> truthy n = true.
Proof.
  intros H. unfold truthy. destruct (Z.eqb_spec n 0); [contradiction | reflexivity].
Qed.

(** ** Big-endian values *)

Lemma pow_len_snoc (s : str) (b : byte) :
  256 ^ len (s ++ [b]) = 256 ^ len s * 256.
Proof.
  rewrite len_app. change (len [b]) with 1.
  rewrite Z.pow_add_r by (try apply len_nonneg; lia). reflexivity.
Qed.

Lemma pow_len_cons (b : byte) (s : str) :
  256 ^ len (b :: s) = 256 * 256 ^ len s.
Proof.
  rewrite len_cons.
  rewrite Z.pow_add_r by (try apply len_nonneg; lia). reflexivity.
Qed.

Lemma fold_be_app (s : str) (b : byte) (acc : Z) :
  fold_left (fun a c => a * 256 + byte_val c) (s ++ [b]) acc =
  fold_left (fun a c => a * 256 + byte_val c) s acc * 256 + byte_val b.
Proof. rewrite fold_left_app. reflexivity. Qed.

Lemma fold_be_acc (s : str) (acc : Z) :
  fold_left (fun a c => a * 256 + byte_val c) s acc =
  acc * 256 ^ len s + unsigned_be s.
Proof.
  unfold unsigned_be. revert acc.
  induction s as [|b s IH] using rev_ind; intros acc.
  - simpl. unfold len. simpl. lia.
  - rewrite !fold_be_app, IH, pow_len_snoc. ring.
Qed.

Lemma unsigned_be_snoc (s : str) (b : byte) :
  unsigned_be (s ++ [b]) = unsigned_be s * 256 + byte_val b.
Proof. unfold unsigned_be. apply fold_be_app. Qed.

Lemma unsigned_be_cons (b : byte) (s : str) :
  unsigned_be (b :: s) = byte_val b * 256 ^ len s + unsigned_be s.
Proof.
  unfold unsigned_be at 1. simpl. rewrite fold_be_acc. reflexivity.
Qed.

Lemma unsigned_be_range (s : str) : 0 <= unsigned_be s < 256 ^ len s.
Proof.
  induction s as [|b s IH] using rev_ind.
  - unfold unsigned_be, len. simpl. lia.
  - rewrite unsigned_be_snoc, pow_len_snoc.
    pose proof (byte_val_range b). nia.
Qed.

Lemma twos_complement_cons (b : byte) (s : str) :
  twos_complement (b :: s) =
  (if byte_val b >=? 128 then byte_val b - 256 else byte_val b) * 256 ^ len s
  + unsigned_be s.
Proof. unfold twos_complement. apply fold_be_acc. Qed.

(** ** The writer *)

Lemma join_chars (s : str) : join (chars s) = s.
Proof.
  unfold join, chars. induction s as [|b s IH]; simpl; [|rewrite IH]; reflexivity.
Qed.

Lemma join_cons (c : str) (r : list str) : join (c :: r) = c ++ join r.
Proof. reflexivity. Qed.

Lemma chars_snoc (s : str) (b : byte) (r : list str) :
  chars (s ++ [b]) ++ r = chars s ++ [b] :: r.
Proof. unfold chars. rewrite map_app, <- app_assoc. reflexivity. Qed.

(** The loop of [emit_length] terminates on a natural number and prepends
    its big-endian bytes, the first of which is not zero. *)
Lemma emit_length_loop_spec (fuel : nat) (n : Z) (r : list str) :
  0 <= n < 2 ^ Z.of_nat fuel ->
  exists bs,
    Encoder.emit_length_loop fuel n r = Ok (chars bs ++ r) /\
    unsigned_be bs = n /\
    (n = 0 -> bs = []) /\
    (0 < n -> exists b rest, bs = b :: rest /\ byte_val b <> 0).
Proof.
  revert n r. induction fuel as [|fuel IH]; intros n r Hn.
  - assert (n = 0) by (simpl in Hn; lia). subst n.
    exists []. simpl. repeat split; try reflexivity. intros; lia.
  - destruct (Z.eq_dec n 0) as [->|Hnz].
    + exists []. simpl. repeat split; try reflexivity. intros; lia.
    + cbn [Encoder.emit_length_loop]. rewrite truthy_true by exact Hnz.
      rewrite land_0xff, shiftr_8.
      destruct (chr_in_range (n mod 256)) as (b & -> & Hb);
        [apply Z.mod_pos_bound; lia|].
      cbn [obind].
      assert (Hq : 0 <= n / 256 < 2 ^ Z.of_nat fuel).
      { rewrite Nat2Z.inj_succ, Z.pow_succ_r in Hn by lia.
        split; [apply Z.div_pos; lia|].
        apply Z.div_lt_upper_bound; lia. }
      destruct (IH (n / 256) ([b] :: r) Hq) as (bs & El & Hval & Hz & Hpos).
      exists (bs ++ [b]). rewrite chars_snoc.
      split; [exact El|]. split; [|split].
      * rewrite unsigned_be_snoc, Hval, Hb.
        pose proof (Z.div_mod n 256). lia.
      * intros; lia.
      * intros _. destruct (Z.eq_dec (n / 256) 0) as [E|E].
        -- rewrite (Hz E). exists b, []. split; [reflexivity|].
           rewrite Hb. pose proof (Z.div_mod n 256). lia.
        -- destruct Hpos as (b' & rest & -> & Hb'); [lia|].
           exists b', (rest ++ [b]). split; [reflexivity | exact Hb'].
Qed.

Lemma emit_length_short (n : Z) (self : Encoder.t) :
  0 <= n < 0x80 ->
  exists b,
    byte_val b = n /\
    Encoder.emit_length n self =
      (Ok tt, Encoder.mk ([b] :: Encoder.r self) (Encoder.length self + 1)).
Proof.
  intros Hn. unfold Encoder.emit_length.
  destruct (Z.ltb_spec n 0x80); [|lia].
  destruct (chr_in_range n) as (b & E & Hb); [lia|].
  exists b. split; [exact Hb|].
  unfold bind, lift. rewrite E. reflexivity.
Qed.

Lemma emit_length_negative (n : Z) (self : Encoder.t) :
  n < 0 ->
  Encoder.emit_length n self =
    (Raise (if (LONG_MIN <=? n) && (n <=? LONG_MAX)
            then ValueError else OverflowError), self).
Proof.
  intros Hn. unfold Encoder.emit_length.
  destruct (Z.ltb_spec n 0x80); [|lia].
  unfold bind, lift. rewrite chr_out_of_range by lia. reflexivity.
Qed.

Lemma emit_length_long (n : Z) (self : Encoder.t) :
  0x80 <= n ->
  exists b0 b1 bs,
    byte_val b0 = 128 + (n - 1) mod 128 /\
    unsigned_be (b1 :: bs) = n /\ byte_val b1 <> 0 /\
    Encoder.emit_length n self =
      (Ok tt, Encoder.mk ((b0 :: b1 :: bs) :: Encoder.r self)
                (Encoder.length self + len (b0 :: b1 :: bs))).
Proof.
  intros Hn. unfold Encoder.emit_length.
  destruct (Z.ltb_spec n 0x80); [lia|].
  rewrite land_0x7f, lor_0x80 by (apply Z.mod_pos_bound; lia).
  destruct (chr_in_range (128 + (n - 1) mod 128)) as (b0 & E & Hb0).
  { pose proof (Z.mod_pos_bound (n - 1) 128). lia. }
  destruct (emit_length_loop_spec (S (Z.to_nat (Z.log2 n))) n [])
    as (bs & El & Hval & _ & Hpos).
  { rewrite Nat2Z.inj_succ, Z2Nat.id by apply Z.log2_nonneg.
    pose proof (Z.log2_spec n). lia. }
  destruct Hpos as (b1 & rest & -> & Hb1); [lia|].
  exists b0, b1, rest.
  split; [exact Hb0|]. split; [exact Hval|]. split; [exact Hb1|].
  unfold bind, lift. rewrite E, El. unfold Encoder.emit.
  rewrite app_nil_r, join_cons, join_chars. reflexivity.
Qed.

Lemma shiftr_8_fixpoint (n : Z) : n = n / 256 <-> n = 0 \/ n = -1.
Proof.
  split.
  - intros H. pose proof (Z.div_mod n 256). pose proof (Z.mod_pos_bound n 256). lia.
  - intros [->| ->]; reflexivity.
Qed.

(** The last iteration: [n0] is [0] or [-1], and a sign byte is prepended
    exactly when the byte below it does not show the sign. *)
Lemma emit_integer_loop_stop (fuel : nat) (n0 byte i : Z) (low : str) :
  n0 = 0 \/ n0 = -1 ->
  loop_head n0 byte i low ->
  exists out,
    Encoder.emit_integer_loop (S fuel) n0 n0 byte i (chars low) = Ok (chars out) /\
    twos_complement out = n0 * 256 ^ len low + unsigned_be low /\
    minimal out = true.
Proof.
  intros Hn0 (Hi & Hzero & Hpos).
  cbn [Encoder.emit_integer_loop]. rewrite shiftr_8.
  replace (n0 / 256) with n0 by (destruct Hn0 as [->| ->]; reflexivity).
  rewrite Z.eqb_refl.
  destruct (Z.eq_dec i 0) as [Ei|Ei].
  - destruct (Hzero Ei) as (-> & ->). subst i.
    destruct Hn0 as [->| ->].
    + exists [x00]. repeat split.
    + exists [xff]. repeat split.
  - destruct Hpos as (b & rest & -> & -> & Hne0 & Hne1); [lia|].
    rewrite high_bit_byte.
    replace (i =? 0) with false by (symmetry; apply Z.eqb_neq; exact Ei).
    rewrite orb_false_r.
    pose proof (byte_val_range b) as Hb.
    pose proof (unsigned_be_range rest) as Hrest.
    destruct Hn0 as [->| ->]; cbn [Z.eqb andb];
      destruct (Z.geb_spec (byte_val b) 128) as [Hhi|Hlo]; cbn [negb].
    + exists (x00 :: b :: rest). split; [reflexivity|]. split.
      * rewrite twos_complement_cons. change (byte_val x00) with 0.
        cbn [Z.geb Z.compare]. lia.
      * cbn [minimal redundant_lead]. change (byte_val x00) with 0.
        destruct (Z.ltb_spec (byte_val b) 128); [lia | reflexivity].
    + exists (b :: rest). split; [reflexivity|]. split.
      * rewrite twos_complement_cons, unsigned_be_cons.
        destruct (Z.geb_spec (byte_val b) 128); lia.
      * cbn [minimal redundant_lead]. destruct rest as [|b1 rest']; [reflexivity|].
        destruct (Z.eqb_spec (byte_val b) 0); [lia|].
        destruct (Z.eqb_spec (byte_val b) 255); [lia | reflexivity].
    + exists (b :: rest). split; [reflexivity|]. split.
      * rewrite twos_complement_cons, unsigned_be_cons, pow_len_cons.
        destruct (Z.geb_spec (byte_val b) 128); lia.
      * cbn [minimal redundant_lead]. destruct rest as [|b1 rest']; [reflexivity|].
        destruct (Z.eqb_spec (byte_val b) 0); [lia|].
        destruct (Z.eqb_spec (byte_val b) 255); [lia | reflexivity].
    + exists (xff :: b :: rest). split; [reflexivity|]. split.
      * rewrite twos_complement_cons. change (byte_val xff) with 255.
        cbn [Z.geb Z.compare Pos.compare Pos.compare_cont]. lia.
      * cbn [minimal redundant_lead]. change (byte_val xff) with 255.
        destruct (Z.geb_spec (byte_val b) 128); [lia | reflexivity].
Qed.

(** The loop of [emit_integer] terminates and completes [low] to the
    minimal two's complement encoding of [n0 * 256^len(low) + low]. *)
Lemma emit_integer_loop_spec (f : nat) (n0 byte i : Z) (low : str) :
  - 2 ^ Z.of_nat f <= n0 < 2 ^ Z.of_nat f ->
  loop_head n0 byte i low ->
  exists out,
    Encoder.emit_integer_loop (S f) n0 n0 byte i (chars low) = Ok (chars out) /\
    twos_complement out = n0 * 256 ^ len low + unsigned_be low /\
    minimal out = true.
Proof.
  revert n0 byte i low. induction f as [|f IH]; intros n0 byte i low Hn0 Hhead.
  - apply emit_integer_loop_stop; [|exact Hhead].
    change (2 ^ Z.of_nat 0) with 1 in Hn0. lia.
  - destruct (Z.eq_dec n0 (n0 / 256)) as [E|E].
    + apply emit_integer_loop_stop; [|exact Hhead].
      apply shiftr_8_fixpoint, E.
    + cbn [Encoder.emit_integer_loop]. rewrite shiftr_8, land_0xff.
      replace (n0 =? n0 / 256) with false by (symmetry; apply Z.eqb_neq, E).
      destruct (chr_in_range (n0 mod 256)) as (b & -> & Hb);
        [apply Z.mod_pos_bound; lia|].
      cbn [obind].
      pose proof (Z.div_mod n0 256 ltac:(lia)) as Hdm.
      destruct Hhead as (Hi & _ & _).
      destruct (IH (n0 / 256) (n0 mod 256) (i + 1) (b :: low))
        as (out & El & Hval & Hmin).
      { rewrite Nat2Z.inj_succ, Z.pow_succ_r in Hn0 by lia.
        split.
        - apply Z.div_le_lower_bound; lia.
        - apply Z.div_lt_upper_bound; lia. }
      { split; [lia|]. split; [intros; lia|]. intros _.
        exists b, low. split; [reflexivity|]. split; [symmetry; exact Hb|].
        assert (n0 <> 0 /\ n0 <> -1) as [? ?].
        { split; intros ->; apply E; reflexivity. }
        lia. }
      exists out. split; [exact El|]. split; [|exact Hmin].
      rewrite Hval, unsigned_be_cons, pow_len_cons, Hb. 
      rewrite Hdm at 3. ring.
Qed.

(** [emit_integer(n)] never fails: it emits one chunk, the minimal two's
    complement encoding of [n]. *)
Lemma emit_integer_spec (n : Z) (self : Encoder.t) :
  exists out,
    Encoder.emit_integer n self =
      (Ok tt, Encoder.mk (out :: Encoder.r self) (Encoder.length self + len out)) /\
    twos_complement out = n /\
    minimal out = true.
Proof.
  destruct (emit_integer_loop_spec (S (Z.to_nat (Z.log2 (Z.abs n)))) n 0x80 0 [])
    as (out & El & Hval & Hmin).
  - rewrite Nat2Z.inj_succ, Z2Nat.id by apply Z.log2_nonneg.
    destruct (Z.eq_dec n 0) as [->|Hnz]; [simpl; lia|].
    pose proof (Z.log2_spec (Z.abs n)). lia.
  - split; [lia|]. split; [intros _; split; reflexivity | intros; lia].
  - exists out. split; [|split; [|exact Hmin]].
    + unfold Encoder.emit_integer, bind, lift.
      change (chars []) with (@nil str) in El. rewrite El.
      unfold Encoder.emit. rewrite join_chars. reflexivity.
    + rewrite Hval. unfold unsigned_be, len. simpl. lia.
Qed.

Lemma chr_cases (n : Z) :
  (exists b, chr n = Ok [b] /\ byte_val b = n /\ 0 <= n < 256) \/
  (exists e, chr n = Raise e /\ (n < 0 \/ 256 <= n)).
Proof.
  destruct (Z.lt_ge_cases n 0);
    [right; eexists; split; [apply chr_out_of_range|]; lia|].
  destruct (Z.lt_ge_cases n 256);
    [|right; eexists; split; [apply chr_out_of_range|]; lia].
  left. destruct (chr_in_range n) as (b & E & Hb); [lia|].
  exists b. repeat split; try assumption; lia.
Qed.

(** [emit_length(n)] emits one chunk, or raises (negative [n], the error of
    [chr]) and emits nothing. *)
Lemma emit_length_cases (n : Z) (self : Encoder.t) :
  (exists c, 0 <= n /\
     Encoder.emit_length n self =
       (Ok tt, Encoder.mk (c :: Encoder.r self) (Encoder.length self + len c))) \/
  (exists e, n < 0 /\ Encoder.emit_length n self = (Raise e, self)).
Proof.
  destruct (Z.lt_ge_cases n 0) as [Hneg|Hnn].
  - right. eexists. split; [exact Hneg | apply emit_length_negative, Hneg].
  - left. destruct (Z.lt_ge_cases n 0x80) as [Hs|Hl].
    + destruct (emit_length_short n self) as (b & _ & E); [lia|].
      exists [b]. split; [exact Hnn | exact E].
    + destruct (emit_length_long n self Hl) as (b0 & b1 & bs & _ & _ & _ & E).
      exists (b0 :: b1 :: bs). split; [exact Hnn | exact E].
Qed.

Lemma writer_inv_emit (data : str) (self : Encoder.t) :
  writer_inv self ->
  writer_inv (Encoder.mk (data :: Encoder.r self) (Encoder.length self + len data)).
Proof.
  unfold writer_inv. simpl. intros ->. lia.
Qed.

(** C9.  The writer invariant [length == sum(len(c) for c in r)] holds at
    creation and is kept by [emit], [emit_length], [emit_integer] and the
    close of a TLV scope ([EncoderContext.__exit__]), whether they return or
    raise; [emit] puts its chunk in front of the chunks already there, the
    other three put the chunks they emit in front and leave the older chunks
    as they were; and [done()] is the concatenation of the chunks in the
    order they are stored. *)
Theorem writer_invariant (self : Encoder.t) :
  writer_inv self ->
  (forall data,
     Encoder.emit data self =
       (Ok tt, Encoder.mk (data :: Encoder.r self) (Encoder.length self + len data)) /\
     writer_inv (snd (Encoder.emit data self))) /\
  (forall n,
     writer_inv (snd (Encoder.emit_length n self)) /\
     exists new, Encoder.r (snd (Encoder.emit_length n self)) = new ++ Encoder.r self) /\
  (forall n,
     writer_inv (snd (Encoder.emit_integer n self)) /\
     exists new, Encoder.r (snd (Encoder.emit_integer n self)) = new ++ Encoder.r self) /\
  (forall ctx exc,
     writer_inv (snd (EncoderContext.__exit__ ctx exc self)) /\
     exists new,
       Encoder.r (snd (EncoderContext.__exit__ ctx exc self)) = new ++ Encoder.r self) /\
  Encoder.done self = (Ok (List.concat (Encoder.r self)), self).
Proof.
  intros Hinv. split; [|split; [|split; [|split]]].
  - intros data. split; [reflexivity|]. apply writer_inv_emit, Hinv.
  - intros n. destruct (emit_length_cases n self) as [(c & _ & ->)|(e & _ & ->)]; simpl.
    + split; [apply writer_inv_emit, Hinv|]. exists [c]. reflexivity.
    + split; [exact Hinv|]. exists []. reflexivity.
  - intros n. destruct (emit_integer_spec n self) as (out & -> & _); simpl.
    split; [apply writer_inv_emit, Hinv|]. exists [out]. reflexivity.
  - intros ctx exc. unfold EncoderContext.__exit__, bind, lift.
    destruct (emit_length_cases (Encoder.length self - EncoderContext.pos ctx) self)
      as [(c & _ & ->)|(e & _ & ->)].
    + destruct (chr_cases (EncoderContext.tag ctx)) as [(b & -> & _)|(e & -> & _)];
        simpl.
      * split.
        { apply (writer_inv_emit [b]
                   (Encoder.mk (c :: Encoder.r self) (Encoder.length self + len c))).
          apply writer_inv_emit, Hinv. }
        exists [[b]; c]. reflexivity.
      * split; [apply (writer_inv_emit c), Hinv|]. exists [c]. reflexivity.
    + simpl. split; [exact Hinv|]. exists []. reflexivity.
  - reflexivity.
Qed.

Lemma writer_inv_init : writer_inv Encoder.__init__.
Proof. reflexivity. Qed.

Lemma writer_invariant_witness :
  writer_inv Encoder.__init__ /\
  writer_inv (snd (Encoder.emit_integer (-129) Encoder.__init__)) /\
  Encoder.done Encoder.__init__ = (Ok [], Encoder.__init__).
Proof.
  pose proof (writer_invariant Encoder.__init__ writer_inv_init)
    as (_ & _ & Hint & _ & Hdone).
  split; [exact writer_inv_init|].
  split; [exact (proj1 (Hint (-129))) | exact Hdone].
Defined.

(** ** The TLV scope *)

(** C7 as stated fails: the body below emits one content byte and then
    raises [ValueError]; the scope still emits the length [0x01] and the tag
    [0x30] before the error leaves the [with] statement. *)
Lemma TLV_scope_on_error_counterexample :
  (Encoder.emit [x01] ;;; Encoder.emit_length (-1)) Encoder.__init__ =
    (Raise ValueError, Encoder.mk [[x01]] 1) /\
  with_ (TLV 0x30) (Encoder.emit [x01] ;;; Encoder.emit_length (-1))
    Encoder.__init__ =
    (Raise ValueError, Encoder.mk [[x30]; [x01]; [x01]] 3) /\
  Encoder.done (Encoder.mk [[x30]; [x01]; [x01]] 3) =
    (Ok [x30; x01; x01], Encoder.mk [[x30]; [x01]; [x01]] 3).
Proof. repeat split. Qed.

(** C7, amended.  When the body of a TLV scope raises, the scope is closed
    all the same: [__exit__] emits the length of what the body had emitted,
    then the tag byte, both in front of the content, and the error of the
    body is raised again. *)
Theorem TLV_scope_finalizes_on_error {A : Type} (tag : Z) (body : M Encoder.t A)
  (self self1 : Encoder.t) (e : exn) :
  0 <= tag < 256 ->
  body self = (Raise e, self1) ->
  Encoder.length self <= Encoder.length self1 ->
  exists l t,
    chr tag = Ok t /\
    Encoder.emit_length (Encoder.length self1 - Encoder.length self) self1 =
      (Ok tt, Encoder.mk (l :: Encoder.r self1) (Encoder.length self1 + len l)) /\
    with_ (TLV tag) body self =
      (Raise e,
       Encoder.mk (t :: l :: Encoder.r self1)
         (Encoder.length self1 + len l + len t)).
Proof.
  intros Htag Hbody Hlen.
  destruct (emit_length_cases (Encoder.length self1 - Encoder.length self) self1)
    as [(l & _ & El)|(e' & Hneg & _)]; [|lia].
  destruct (chr_in_range tag Htag) as (b & Et & _).
  exists l, [b]. split; [exact Et|]. split; [exact El|].
  unfold with_, TLV, EncoderContext.__init__, EncoderContext.__enter__,
    EncoderContext.__exit__, bind, ret, raise, lift.
  rewrite Hbody. cbn [EncoderContext.pos EncoderContext.tag].
  rewrite El, Et. reflexivity.
Qed.

Lemma TLV_scope_finalizes_on_error_witness :
  exists l t,
    chr 0x30 = Ok t /\
    Encoder.emit_length (1 - 0) (Encoder.mk [[x01]] 1) =
      (Ok tt, Encoder.mk [l; [x01]] (1 + len l)) /\
    with_ (TLV 0x30) (Encoder.emit [x01] ;;; Encoder.emit_length (-1))
      Encoder.__init__ =
      (Raise ValueError, Encoder.mk [t; l; [x01]] (1 + len l + len t)).
Proof.
  apply (TLV_scope_finalizes_on_error 0x30
           (Encoder.emit [x01] ;;; Encoder.emit_length (-1))
           Encoder.__init__ (Encoder.mk [[x01]] 1) ValueError).
  - lia.
  - reflexivity.
  - simpl. lia.
Defined.

(** ** Constraints of [next_INTEGER] and [next_OCTET_STRING] *)

Lemma TAG_INTEGER : getattr TAG "INTEGER" = Ok 0x02.
Proof. reflexivity. Qed.

Lemma TAG_OCTETSTRING : getattr TAG "OCTETSTRING" = Ok 0x04.
Proof. reflexivity. Qed.

(** [next_INTEGER] is the decoding without bounds followed by the two
    comparisons. *)
Lemma next_INTEGER_bounds (min_val max_val : option Z) (self : Buf.t) :
  Buf.next_INTEGER min_val max_val self =
  match Buf.next_INTEGER None None self with
  | (Ok r, self') =>
      if Buf.is_not_None_and min_val (Buf.py_lt r) then
        (Raise ConstraintViolation, self')
      else if Buf.is_not_None_and max_val (Buf.py_gt r) then
        (Raise ConstraintViolation, self')
      else (Ok r, self')
  | other => other
  end.
Proof.
  unfold Buf.next_INTEGER, bind, lift. rewrite TAG_INTEGER.
  destruct (Buf.check 2 self) as [[[]|e|] s1]; try reflexivity.
  destruct (Buf.get_length s1) as [[length|e|] s2]; try reflexivity.
  destruct (Buf.get_integer length s2) as [[r|e|] s3]; try reflexivity.
  cbn [Buf.is_not_None_and]. unfold ret, raise.
  destruct (Buf.is_not_None_and min_val (Buf.py_lt r)); [reflexivity|].
  destruct (Buf.is_not_None_and max_val (Buf.py_gt r)); reflexivity.
Qed.

Lemma next_OCTET_STRING_bounds (min_size max_size : option Z) (self : Buf.t) :
  Buf.next_OCTET_STRING min_size max_size self =
  match Buf.next_OCTET_STRING None None self with
  | (Ok r, self') =>
      if Buf.is_not_None_and min_size (fun m => len r <? m) then
        (Raise ConstraintViolation, self')
      else if Buf.is_not_None_and max_size (fun m => len r >? m) then
        (Raise ConstraintViolation, self')
      else (Ok r, self')
  | other => other
  end.
Proof.
  unfold Buf.next_OCTET_STRING, bind, lift. rewrite TAG_OCTETSTRING.
  destruct (Buf.check 4 self) as [[[]|e|] s1]; try reflexivity.
  destruct (Buf.get_length s1) as [[length|e|] s2]; try reflexivity.
  destruct (Buf.pop_bytes length s2) as [[r|e|] s3]; try reflexivity.
  cbn [Buf.is_not_None_and]. unfold ret, raise.
  destruct (Buf.is_not_None_and min_size (fun m => len r <? m)); [reflexivity|].
  destruct (Buf.is_not_None_and max_size (fun m => len r >? m)); reflexivity.
Qed.

(** The bound checks on an element that is decoded.  When [next_INTEGER]
    without bounds returns an integer [v] (so the content is not negative,
    see [next_INTEGER_negative_content] for the other case), then with bounds
    it raises [ConstraintViolation] when a minimum is given and [v] is below
    it, or a maximum is given and [v] is above it; otherwise, and so when [v]
    equals a bound, it returns [v].  The same holds of [next_OCTET_STRING]
    and the length of a string it returns without bounds.  The reader is left
    where the decoding without bounds leaves it. *)
Theorem constraint_enforcement (self self' : Buf.t) (min max : option Z) :
  (forall v,
     Buf.next_INTEGER None None self = (Ok (Some v), self') ->
     ((exists m, min = Some m /\ v < m) \/ (exists m, max = Some m /\ m < v) ->
      Buf.next_INTEGER min max self = (Raise ConstraintViolation, self')) /\
     ((forall m, min = Some m -> m <= v) -> (forall m, max = Some m -> v <= m) ->
      Buf.next_INTEGER min max self = (Ok (Some v), self'))) /\
  (forall s,
     Buf.next_OCTET_STRING None None self = (Ok s, self') ->
     ((exists m, min = Some m /\ len s < m) \/ (exists m, max = Some m /\ m < len s) ->
      Buf.next_OCTET_STRING min max self = (Raise ConstraintViolation, self')) /\
     ((forall m, min = Some m -> m <= len s) ->
      (forall m, max = Some m -> len s <= m) ->
      Buf.next_OCTET_STRING min max self = (Ok s, self'))).
Proof.
  split.
  - intros v E. rewrite next_INTEGER_bounds, E. split.
    + intros [(m & -> & Hlt)|(m & -> & Hgt)]; cbn [Buf.is_not_None_and Buf.py_lt Buf.py_gt].
      * destruct (Z.ltb_spec v m); [reflexivity | lia].
      * destruct (Buf.is_not_None_and min _); [reflexivity|].
        destruct (Z.gtb_spec v m); [reflexivity | lia].
    + intros Hmin Hmax.
      destruct min as [m|]; destruct max as [m'|];
        cbn [Buf.is_not_None_and Buf.py_lt Buf.py_gt];
        try (specialize (Hmin _ eq_refl)); try (specialize (Hmax _ eq_refl));
        repeat match goal with
          | |- context [?a <? ?b] => destruct (Z.ltb_spec a b); [lia|]
          | |- context [?a >? ?b] => destruct (Z.gtb_spec a b); [lia|]
          end; reflexivity.
  - intros s E. rewrite next_OCTET_STRING_bounds, E. split.
    + intros [(m & -> & Hlt)|(m & -> & Hgt)]; cbn [Buf.is_not_None_and].
      * destruct (Z.ltb_spec (len s) m); [reflexivity | lia].
      * destruct (Buf.is_not_None_and min _); [reflexivity|].
        destruct (Z.gtb_spec (len s) m); [reflexivity | lia].
    + intros Hmin Hmax.
      destruct min as [m|]; destruct max as [m'|];
        cbn [Buf.is_not_None_and];
        try (specialize (Hmin _ eq_refl)); try (specialize (Hmax _ eq_refl));
        repeat match goal with
          | |- context [?a <? ?b] => destruct (Z.ltb_spec a b); [lia|]
          | |- context [?a >? ?b] => destruct (Z.gtb_spec a b); [lia|]
          end; reflexivity.
Qed.

Lemma constraint_enforcement_witness :
  Buf.next_INTEGER (Some 5) (Some 5) (Buf.mk [x02; x01; x05] 0 3) =
    (Ok (Some 5), Buf.mk [x02; x01; x05] 3 3) /\
  Buf.next_INTEGER (Some 6) None (Buf.mk [x02; x01; x05] 0 3) =
    (Raise ConstraintViolation, Buf.mk [x02; x01; x05] 3 3) /\
  Buf.next_OCTET_STRING (Some 2) (Some 2) (Buf.mk [x04; x02; xaa; xbb] 0 4) =
    (Ok [xaa; xbb], Buf.mk [x04; x02; xaa; xbb] 4 4) /\
  Buf.next_OCTET_STRING None (Some 1) (Buf.mk [x04; x02; xaa; xbb] 0 4) =
    (Raise ConstraintViolation, Buf.mk [x04; x02; xaa; xbb] 4 4).
Proof.
  split; [|split; [|split]].
  - destruct (constraint_enforcement (Buf.mk [x02; x01; x05] 0 3)
                (Buf.mk [x02; x01; x05] 3 3) (Some 5) (Some 5)) as [Hint _].
    destruct (Hint 5 eq_refl) as [_ Hacc].
    apply Hacc; intros m E; injection E as <-; lia.
  - destruct (constraint_enforcement (Buf.mk [x02; x01; x05] 0 3)
                (Buf.mk [x02; x01; x05] 3 3) (Some 6) None) as [Hint _].
    destruct (Hint 5 eq_refl) as [Hrej _].
    apply Hrej. left. exists 6. split; [reflexivity | lia].
  - destruct (constraint_enforcement (Buf.mk [x04; x02; xaa; xbb] 0 4)
                (Buf.mk [x04; x02; xaa; xbb] 4 4) (Some 2) (Some 2)) as [_ Hstr].
    destruct (Hstr [xaa; xbb] eq_refl) as [_ Hacc].
    apply Hacc; intros m E; injection E as <-; unfold len; simpl; lia.
  - destruct (constraint_enforcement (Buf.mk [x04; x02; xaa; xbb] 0 4)
                (Buf.mk [x04; x02; xaa; xbb] 4 4) None (Some 1)) as [_ Hstr].
    destruct (Hstr [xaa; xbb] eq_refl) as [Hrej _].
    apply Hrej. right. exists 1. split; [reflexivity | unfold len; simpl; lia].
Defined.

(** C8 fails on the code for an INTEGER element with a negative content.
    The writer encodes [-5] as [02 01 fb]; on these bytes [get_integer] hands
    [None] to [next_INTEGER], which Python 2 orders below every bound, so a
    minimum always rejects it and a maximum never does: with both bounds
    equal to the value [-5] the code raises [ConstraintViolation] where the
    value is to be accepted and returned, and with the maximum [-10], which
    [-5] exceeds, it returns [None] where [ConstraintViolation] is to be
    raised. *)
Lemma next_INTEGER_negative_content :
  fst ((emit_INTEGER (-5) ;;; Encoder.done) Encoder.__init__) =
    Ok [x02; x01; xfb] /\
  Buf.next_INTEGER (Some (-5)) (Some (-5)) (Buf.__init__ [x02; x01; xfb] None None) =
    (Raise ConstraintViolation, Buf.mk [x02; x01; xfb] 3 3) /\
  Buf.next_INTEGER None (Some (-10)) (Buf.__init__ [x02; x01; xfb] None None) =
    (Ok None, Buf.mk [x02; x01; xfb] 3 3).
Proof. repeat split. Qed.

(** ** The length codec *)

Lemma set_pos_end (self : Buf.t) :
  Buf.pos self = Buf.end_ self -> Buf.set_pos self (Buf.end_ self) = self.
Proof. destruct self as [d p e]. simpl. intros ->. reflexivity. Qed.

Lemma reader_inv_advance (self : Buf.t) (k : Z) :
  reader_inv self -> 0 <= k -> Buf.pos self + k <= Buf.end_ self ->
  reader_inv (Buf.set_pos self (Buf.pos self + k)).
Proof. unfold reader_inv. simpl. lia. Qed.

(** The loop of [get_length] never changes [lol], so once entered it only
    ends when [pop_byte] runs out of bytes. *)
Lemma get_length_loop_exhausts (fuel : nat) (lol n : Z) (self : Buf.t) :
  lol <> 0 -> reader_inv self ->
  (Z.to_nat (Buf.end_ self - Buf.pos self) < fuel)%nat ->
  Buf.get_length_loop fuel lol n self =
    (Raise Underflow, Buf.set_pos self (Buf.end_ self)).
Proof.
  intros Hlol. revert n self.
  induction fuel as [|fuel IH]; intros n self Hinv Hfuel; [lia|].
  cbn [Buf.get_length_loop]. rewrite truthy_true by exact Hlol.
  unfold bind.
  destruct (Z.lt_ge_cases (Buf.pos self) (Buf.end_ self)) as [Hlt|Hge].
  - destruct (pop_byte_in_range self Hinv Hlt) as (b & _ & ->).
    rewrite IH.
    + reflexivity.
    + apply reader_inv_advance; [exact Hinv | lia | lia].
    + simpl. lia.
  - assert (Buf.pos self = Buf.end_ self) by (destruct Hinv; lia).
    rewrite pop_byte_underflow by lia.
    rewrite set_pos_end by assumption. reflexivity.
Qed.

Lemma get_length_short_form (self self1 : Buf.t) (v : Z) :
  Buf.pop_byte self = (Ok v, self1) -> v < 0x80 ->
  Buf.get_length self = (Ok v, self1).
Proof.
  intros E Hv. unfold Buf.get_length, bind. rewrite E.
  destruct (Z.ltb_spec v 0x80); [reflexivity | lia].
Qed.

Lemma get_length_indefinite (self self1 : Buf.t) :
  Buf.pop_byte self = (Ok 0x80, self1) ->
  Buf.get_length self = (Raise IndefiniteLength, self1).
Proof. intros E. unfold Buf.get_length, bind. rewrite E. reflexivity. Qed.

Lemma get_length_too_large (self self1 : Buf.t) (v : Z) :
  Buf.pop_byte self = (Ok v, self1) -> 0x80 < v -> 4 < Z.land v 0x7f ->
  Buf.get_length self = (Raise ElementTooLarge, self1).
Proof.
  intros E Hv Hlol. unfold Buf.get_length, bind. rewrite E.
  destruct (Z.ltb_spec v 0x80); [lia|].
  destruct (Z.eqb_spec v 0x80); [lia|].
  destruct (Z.gtb_spec (Z.land v 0x7f) 4); [reflexivity | lia].
Qed.

(** The long form with one to four length bytes: whatever follows, the
    reader runs to [end] and [Underflow] is raised. *)
Lemma get_length_long_form (self self1 : Buf.t) (v : Z) :
  reader_inv self ->
  Buf.pop_byte self = (Ok v, self1) -> 0x80 < v -> Z.land v 0x7f <= 4 ->
  Buf.get_length self = (Raise Underflow, Buf.set_pos self (Buf.end_ self)).
Proof.
  intros Hinv E Hv Hlol.
  destruct (pop_byte_cases self) as [(v' & E' & Hlt & Hrange)|(e & E')];
    rewrite E' in E; [|discriminate].
  injection E as -> <-.
  unfold Buf.get_length, bind. rewrite E'.
  destruct (Z.ltb_spec v 0x80); [lia|].
  destruct (Z.eqb_spec v 0x80); [lia|].
  destruct (Z.gtb_spec (Z.land v 0x7f) 4); [lia|].
  rewrite get_length_loop_exhausts.
  - reflexivity.
  - rewrite land_0x7f. pose proof (Z.div_mod v 128). 
    pose proof (Z.mod_pos_bound v 128). lia.
  - apply reader_inv_advance; [exact Hinv | lia | lia].
  - unfold Buf.fuel_of. lia.
Qed.

(** C4 fails on the code by a slip in the loop of [get_length] ([lol] is
    never decremented): [[0x82, 0x01, 0x00]] does not decode to [256]; the
    loop reads both length bytes, asks for a third and raises [Underflow]. *)
Lemma get_length_long_form_example :
  Buf.get_length (Buf.__init__ [x82; x01; x00] None None) =
    (Raise Underflow, Buf.mk [x82; x01; x00] 3 3) /\
  decode_length [x82; x01; x00] = Raise Underflow.
Proof. split; reflexivity. Qed.

(** C3 fails on the code: [emit_length(128)] emits [[0xff, 0x80]] (the first
    byte is computed from [n - 1], not from the number of length bytes),
    which [get_length] rejects; [get_length] also fails on the BER encoding
    [[0x81, 0x80]] of 128. *)
Lemma length_round_trip_128 :
  encode_length 128 = Ok [xff; x80] /\
  decode_length [xff; x80] = Raise ElementTooLarge /\
  decode_length [x81; x80] = Raise Underflow.
Proof. repeat split. Qed.

Lemma reader_inv_init (s : str) : reader_inv (Buf.__init__ s None None).
Proof. unfold reader_inv. simpl. pose proof (len_nonneg s). lia. Qed.

Lemma pop_byte_first (b : byte) (s : str) :
  Buf.pop_byte (Buf.__init__ (b :: s) None None) =
    (Ok (byte_val b), Buf.mk (b :: s) 1 (len (b :: s))).
Proof.
  destruct (pop_byte_in_range (Buf.__init__ (b :: s) None None))
    as (b' & Hb' & E).
  - apply reader_inv_init.
  - simpl. rewrite len_cons. pose proof (len_nonneg s). lia.
  - simpl in Hb'. injection Hb' as <-. exact E.
Qed.

Lemma encode_length_eq (n : Z) (c : str) (l : Z) :
  Encoder.emit_length n Encoder.__init__ = (Ok tt, Encoder.mk [c] l) ->
  encode_length n = Ok c.
Proof.
  intros E. unfold encode_length, bind. rewrite E. simpl.
  unfold join. simpl. rewrite app_nil_r. reflexivity.
Qed.

(** A length below [0x80] is emitted as the one byte [n] and decoded
    again. *)
Lemma length_round_trip_short (n : Z) :
  0 <= n < 0x80 ->
  exists b,
    byte_val b = n /\ encode_length n = Ok [b] /\ decode_length [b] = Ok n.
Proof.
  intros Hn.
  destruct (emit_length_short n Encoder.__init__ Hn) as (b & Hb & E).
  exists b. split; [exact Hb|]. split.
  - apply (encode_length_eq _ _ _ E).
  - unfold decode_length.
    rewrite (get_length_short_form _ _ _ (pop_byte_first b [])) by lia.
    simpl. rewrite Hb. reflexivity.
Qed.

(** From [0x80] on, what [emit_length] emits is never decoded by
    [get_length]: the decoding raises. *)
Lemma length_round_trip_long (n : Z) :
  0x80 <= n ->
  exists s e, encode_length n = Ok s /\ decode_length s = Raise e.
Proof.
  intros Hn.
  destruct (emit_length_long n Encoder.__init__ Hn)
    as (b0 & b1 & bs & Hb0 & _ & _ & E).
  exists (b0 :: b1 :: bs).
  pose proof (pop_byte_first b0 (b1 :: bs)) as Hpop.
  pose proof (Z.mod_pos_bound (n - 1) 128 ltac:(lia)) as Hmod.
  assert (Hdec : exists e, decode_length (b0 :: b1 :: bs) = Raise e).
  { unfold decode_length.
    destruct (Z.eq_dec (byte_val b0) 0x80) as [E80|N80].
    - rewrite E80 in Hpop. rewrite (get_length_indefinite _ _ Hpop).
      eexists. reflexivity.
    - destruct (Z.le_gt_cases (Z.land (byte_val b0) 0x7f) 4) as [Hle|Hgt].
      + rewrite (get_length_long_form _ _ _ (reader_inv_init _) Hpop) by lia.
        eexists. reflexivity.
      + rewrite (get_length_too_large _ _ _ Hpop) by lia.
        eexists. reflexivity. }
  destruct Hdec as (e & Hdec). exists e. split; [|exact Hdec].
  apply (encode_length_eq _ _ _ E).
Qed.

(** ** The integer codec *)

(** On a first byte with the high bit set, [get_integer] subtracts [0x100]
    and falls off the end of the function: it returns [None] and has read one
    byte, whatever [length] is. *)
Lemma get_integer_high_bit (length v : Z) (self self1 : Buf.t) :
  length <> 0 ->
  Buf.pop_byte self = (Ok v, self1) -> Z.land v 0x80 <> 0 ->
  Buf.get_integer length self = (Ok None, self1).
Proof.
  intros Hl E Hv. unfold Buf.get_integer, bind.
  destruct (Z.eqb_spec length 0); [contradiction|].
  rewrite E, truthy_true by exact Hv. reflexivity.
Qed.

(** C2 fails on the code when the first byte has its high bit set: the
    remaining bytes are not folded in and no value is returned.  On
    [[0xff, 0x7f]] (the encoding of [-129]) [get_integer(2)] returns [None]
    with one byte read.  The example of the claim, first byte [0x00], does
    decode to [128]. *)
Lemma get_integer_negative_example :
  Buf.get_integer 2 (Buf.__init__ [xff; x7f] None None) =
    (Ok None, Buf.mk [xff; x7f] 1 2) /\
  Buf.next_INTEGER None None (Buf.__init__ [x02; x02; x00; x80] None None) =
    (Ok (Some 128), Buf.mk [x02; x02; x00; x80] 4 4).
Proof. split; reflexivity. Qed.

(** C1 fails on the code for negative integers: [emit_integer(-1)] emits
    [[0xff]], and [get_integer(1)] on it returns [None], not [-1]. *)
Lemma integer_round_trip_minus_one :
  encode_integer (-1) = Ok [xff] /\
  decode_integer [xff] = Ok None.
Proof. split; reflexivity. Qed.

(** ** [next_APPLICATION] *)

(** C6 fails on the code: [FLAG.APPLICAITON] is not an attribute of [FLAG],
    so once the tag byte is read the method raises [AttributeError]; on
    [[0x60, 0x00]], an APPLICATION tag with empty content, it neither
    returns [(0, reader)] nor raises [UnexpectedType]. *)
Lemma next_APPLICATION_example :
  Buf.next_APPLICATION (Buf.__init__ [x60; x00] None None) =
    (Raise AttributeError, Buf.mk [x60; x00] 1 2) /\
  Buf.next_APPLICATION (Buf.__init__ [x02; x00] None None) =
    (Raise AttributeError, Buf.mk [x02; x00] 1 2).
Proof. split; reflexivity. Qed.

(** [next_APPLICATION] never returns: it raises [AttributeError], or what
    [pop_byte] raised. *)
Lemma next_APPLICATION_never_returns (self : Buf.t) :
  (exists v, Buf.pop_byte self = (Ok v, Buf.set_pos self (Buf.pos self + 1)) /\
     Buf.next_APPLICATION self =
       (Raise AttributeError, Buf.set_pos self (Buf.pos self + 1))) \/
  (exists e, Buf.pop_byte self = (Raise e, self) /\
     Buf.next_APPLICATION self = (Raise e, self)).
Proof.
  unfold Buf.next_APPLICATION, bind.
  destruct (pop_byte_cases self) as [(v & E & _)|(e & E)]; rewrite E.
  - left. exists v. split; reflexivity.
  - right. exists e. split; reflexivity.
Qed.

(** ** The integer codec, continued *)

(** The loop of [get_integer] folds the next [len bs] bytes into the
    accumulator. *)
Lemma get_integer_loop_spec (bs : str) :
  forall (pre post : str) (fuel : nat) (acc e : Z),
    (List.length bs <= fuel)%nat ->
    len pre + len bs <= e -> e <= len (pre ++ bs ++ post) ->
    Buf.get_integer_loop fuel (len bs) acc (Buf.mk (pre ++ bs ++ post) (len pre) e) =
      (Ok (fold_left (fun a c => a * 256 + byte_val c) bs acc),
       Buf.mk (pre ++ bs ++ post) (len pre + len bs) e).
Proof.
  induction bs as [|b bs IH]; intros pre post fuel acc e Hfuel Hle He.
  - change (len []) with 0. rewrite Z.add_0_r.
    destruct fuel; reflexivity.
  - destruct fuel as [|fuel]; [simpl in Hfuel; lia|].
    cbn [Buf.get_integer_loop].
    pose proof (len_nonneg bs) as Hbs. pose proof (len_nonneg pre) as Hpre.
    rewrite len_cons in *.
    rewrite truthy_true by lia. unfold bind.
    destruct (pop_byte_in_range (Buf.mk (pre ++ (b :: bs) ++ post) (len pre) e))
      as (b' & Hb' & ->).
    { unfold reader_inv. cbn [Buf.data Buf.pos Buf.end_]. lia. }
    { cbn [Buf.pos Buf.end_]. lia. }
    cbn [Buf.data Buf.pos] in Hb'. unfold len in Hb'. rewrite Nat2Z.id in Hb'.
    rewrite nth_error_app2, Nat.sub_diag in Hb' by lia.
    injection Hb' as <-.
    rewrite lor_shiftl_8 by apply byte_val_range.
    replace (1 + len bs - 1) with (len bs) by lia.
    assert (Hd : pre ++ (b :: bs) ++ post = (pre ++ [b]) ++ bs ++ post)
      by (rewrite <- app_assoc; reflexivity).
    unfold Buf.set_pos. cbn [Buf.data Buf.pos Buf.end_].
    rewrite Hd in *.
    replace (len pre + 1) with (len (pre ++ [b]))
      by (rewrite len_app; reflexivity).
    rewrite IH.
    + cbn [fold_left]. do 2 f_equal. rewrite len_app. change (len [b]) with 1. lia.
    + simpl in Hfuel. lia.
    + rewrite len_app. change (len [b]) with 1. lia.
    + exact He.
Qed.

(** On a string whose first byte has the high bit clear, [get_integer] over
    the whole string returns its big-endian value. *)
Lemma decode_integer_high_bit_clear (b : byte) (rest : str) :
  byte_val b < 128 ->
  decode_integer (b :: rest) = Ok (Some (twos_complement (b :: rest))).
Proof.
  intros Hb. unfold decode_integer, Buf.get_integer, bind.
  pose proof (len_nonneg rest) as Hrest.
  destruct (Z.eqb_spec (len (b :: rest)) 0) as [E|_];
    [rewrite len_cons in E; lia|].
  rewrite pop_byte_first, high_bit_byte.
  destruct (Z.geb_spec (byte_val b) 128) as [|_]; [lia|].
  unfold Buf.fuel_of. cbn [Buf.pos Buf.end_].
  pose proof (get_integer_loop_spec rest [b] []
                (S (Z.to_nat (len rest))) (byte_val b) (len (b :: rest)))
    as Hloop.
  rewrite app_nil_r in Hloop. change ([b] ++ rest) with (b :: rest) in Hloop.
  change (len [b]) with 1 in Hloop.
  replace (len (b :: rest) - 1) with (len rest) by (rewrite len_cons; lia).
  rewrite Hloop.
  - unfold ret, twos_complement. cbn [fst].
    destruct (Z.geb_spec (byte_val b) 128); [lia | reflexivity].
  - unfold len. rewrite Nat2Z.id. lia.
  - rewrite len_cons. lia.
  - lia.
Qed.

(** On a string whose first byte has the high bit set, [get_integer] over
    the whole string returns [None]. *)
Lemma decode_integer_high_bit_set (b : byte) (rest : str) :
  128 <= byte_val b -> decode_integer (b :: rest) = Ok None.
Proof.
  intros Hb. unfold decode_integer.
  rewrite (get_integer_high_bit (len (b :: rest)) (byte_val b) _
             (Buf.mk (b :: rest) 1 (len (b :: rest)))).
  - reflexivity.
  - rewrite len_cons. pose proof (len_nonneg rest). lia.
  - apply pop_byte_first.
  - pose proof (high_bit_byte b) as H. unfold truthy in H.
    destruct (Z.geb_spec (byte_val b) 128); [|lia].
    destruct (Z.eqb_spec (Z.land (byte_val b) 0x80) 0); [discriminate | assumption].
Qed.

(** The sign of a two's complement string is the high bit of its first
    byte. *)
Lemma twos_complement_sign (b : byte) (rest : str) :
  0 <= twos_complement (b :: rest) <-> byte_val b < 128.
Proof.
  rewrite twos_complement_cons.
  pose proof (unsigned_be_range rest) as Hu.
  pose proof (byte_val_range b) as Hb.
  destruct (Z.geb_spec (byte_val b) 128); split; intros; try lia; nia.
Qed.

Lemma encode_integer_eq (n : Z) (out : str) (l : Z) :
  Encoder.emit_integer n Encoder.__init__ = (Ok tt, Encoder.mk [out] l) ->
  encode_integer n = Ok out.
Proof.
  intros E. unfold encode_integer, bind. rewrite E. simpl.
  unfold join. simpl. rewrite app_nil_r. reflexivity.
Qed.

Lemma encode_integer_spec (n : Z) :
  exists s,
    encode_integer n = Ok s /\ twos_complement s = n /\ minimal s = true.
Proof.
  destruct (emit_integer_spec n Encoder.__init__) as (out & E & Hval & Hmin).
  exists out. split; [|split; assumption].
  apply (encode_integer_eq _ _ _ E).
Qed.

(** [emit_integer] is right for every integer: it never fails, and what it
    emits is the two's complement encoding of [n] with no redundant leading
    [0x00] or [0xff]. *)
Theorem encode_integer_minimal_twos_complement (n : Z) :
  exists s,
    encode_integer n = Ok s /\ twos_complement s = n /\ minimal s = true.
Proof.
  destruct (emit_integer_spec n Encoder.__init__) as (out & E & Hval & Hmin).
  exists out. split; [|split].
  - unfold encode_integer, bind. rewrite E. cbn [fst Encoder.done Encoder.r].
    rewrite join_cons. unfold join. simpl. rewrite app_nil_r. reflexivity.
  - exact Hval.
  - exact Hmin.
Qed.

(** The integer round trip holds for every [n >= 0]. *)
Theorem integer_round_trip_nonneg (n : Z) :
  0 <= n ->
  exists s, encode_integer n = Ok s /\ decode_integer s = Ok (Some n).
Proof.
  intros Hn.
  destruct (encode_integer_spec n) as (s & E & Hval & Hmin).
  exists s. split; [exact E|].
  destruct s as [|b rest]; [discriminate|].
  rewrite decode_integer_high_bit_clear, Hval; [reflexivity|].
  apply (proj1 (twos_complement_sign b rest)). lia.
Qed.

(** For every [n < 0] the round trip yields [None]. *)
Theorem integer_round_trip_negative (n : Z) :
  n < 0 ->
  exists s, encode_integer n = Ok s /\ decode_integer s = Ok None.
Proof.
  intros Hn.
  destruct (encode_integer_spec n) as (s & E & Hval & Hmin).
  exists s. split; [exact E|].
  destruct s as [|b rest]; [discriminate|].
  apply decode_integer_high_bit_set.
  pose proof (twos_complement_sign b rest). lia.
Qed.

Lemma integer_round_trip_nonneg_witness :
  exists s, encode_integer 128 = Ok s /\ decode_integer s = Ok (Some 128).
Proof. apply (integer_round_trip_nonneg 128). lia. Defined.

Lemma integer_round_trip_negative_witness :
  exists s, encode_integer (-32768) = Ok s /\ decode_integer s = Ok None.
Proof. apply (integer_round_trip_negative (-32768)). lia. Defined.

(** ** Termination: the fuel the methods give their loops is enough *)

Lemma get_length_loop_fuel (fuel : nat) (lol n : Z) (self : Buf.t) :
  (Z.to_nat (Buf.end_ self - Buf.pos self) < fuel)%nat ->
  fst (Buf.get_length_loop fuel lol n self) <> OutOfFuel.
Proof.
  revert n self. induction fuel as [|fuel IH]; intros n self Hfuel; [lia|].
  cbn [Buf.get_length_loop]. destruct (truthy lol); [|discriminate].
  unfold bind.
  destruct (pop_byte_cases self) as [(v & -> & Hlt & _)|(e & ->)]; [|discriminate].
  apply IH. simpl. lia.
Qed.

Lemma get_integer_loop_fuel (fuel : nat) (length n : Z) (self : Buf.t) :
  (Z.to_nat (Buf.end_ self - Buf.pos self) < fuel)%nat ->
  fst (Buf.get_integer_loop fuel length n self) <> OutOfFuel.
Proof.
  revert length n self.
  induction fuel as [|fuel IH]; intros length n self Hfuel; [lia|].
  cbn [Buf.get_integer_loop]. destruct (truthy length); [|discriminate].
  unfold bind.
  destruct (pop_byte_cases self) as [(v & -> & Hlt & _)|(e & ->)]; [|discriminate].
  apply IH. simpl. lia.
Qed.

(** No method of the reader or the writer runs out of fuel, whatever the
    state and the arguments: every call returns or raises. *)
Theorem methods_terminate :
  (forall self, fst (Buf.get_length self) <> OutOfFuel) /\
  (forall length self, fst (Buf.get_integer length self) <> OutOfFuel) /\
  (forall n self, fst (Encoder.emit_length n self) <> OutOfFuel) /\
  (forall n self, fst (Encoder.emit_integer n self) <> OutOfFuel).
Proof.
  split; [|split; [|split]].
  - intros self. unfold Buf.get_length, bind.
    destruct (pop_byte_cases self) as [(v & -> & Hlt & _)|(e & ->)]; [|discriminate].
    destruct (v <? 0x80); [discriminate|].
    destruct (v =? 0x80); [discriminate|].
    destruct (Z.land v 0x7f >? 4); [discriminate|].
    apply get_length_loop_fuel. unfold Buf.fuel_of. lia.
  - intros length self. unfold Buf.get_integer, bind.
    destruct (length =? 0); [discriminate|].
    destruct (pop_byte_cases self) as [(v & -> & Hlt & _)|(e & ->)]; [|discriminate].
    destruct (truthy (Z.land v 0x80)); [discriminate|].
    pose proof (get_integer_loop_fuel
                  (Buf.fuel_of (Buf.set_pos self (Buf.pos self + 1)))
                  (length - 1) v (Buf.set_pos self (Buf.pos self + 1))) as H.
    destruct (Buf.get_integer_loop _ _ _ _) as [[a|e|] s'].
    + discriminate.
    + discriminate.
    + exfalso. apply H; [unfold Buf.fuel_of; lia | reflexivity].
  - intros n self.
    destruct (emit_length_cases n self) as [(c & _ & ->)|(e & _ & ->)]; discriminate.
  - intros n self.
    destruct (emit_integer_spec n self) as (out & -> & _). discriminate.
Qed.

(** ** A whole INTEGER element *)

Lemma pop_byte_at (pre post : str) (b : byte) (e : Z) :
  len pre < e -> e <= len (pre ++ b :: post) ->
  Buf.pop_byte (Buf.mk (pre ++ b :: post) (len pre) e) =
    (Ok (byte_val b), Buf.mk (pre ++ b :: post) (len pre + 1) e).
Proof.
  intros Hlt He.
  destruct (pop_byte_in_range (Buf.mk (pre ++ b :: post) (len pre) e))
    as (b' & Hb' & ->).
  - unfold reader_inv. cbn [Buf.data Buf.pos Buf.end_].
    pose proof (len_nonneg pre). lia.
  - exact Hlt.
  - cbn [Buf.data Buf.pos] in Hb'. unfold len in Hb'. rewrite Nat2Z.id in Hb'.
    rewrite nth_error_app2, Nat.sub_diag in Hb' by lia.
    injection Hb' as <-. reflexivity.
Qed.

(** [emit_INTEGER(n)] writes the tag [0x02], the length byte and the content
    emitted by [emit_integer(n)] (contents shorter than 128 bytes). *)
Lemma emit_INTEGER_spec (n : Z) (s : str) :
  encode_integer n = Ok s -> len s < 0x80 ->
  exists bl,
    byte_val bl = len s /\
    fst ((emit_INTEGER n ;;; Encoder.done) Encoder.__init__) = Ok (x02 :: bl :: s).
Proof.
  intros E Hs.
  destruct (emit_integer_spec n Encoder.__init__) as (out & Eo & _).
  rewrite (encode_integer_eq _ _ _ Eo) in E. injection E as ->.
  cbn [Encoder.r Encoder.length Encoder.__init__] in Eo.
  destruct (emit_length_short (len s) (Encoder.mk [s] (0 + len s)))
    as (bl & Hbl & El); [pose proof (len_nonneg s); lia|].
  exists bl. split; [exact Hbl|].
  unfold emit_INTEGER, with_, TLV, EncoderContext.__init__,
    EncoderContext.__enter__, EncoderContext.__exit__, bind, ret, lift.
  rewrite TAG_INTEGER. cbn [Encoder.length Encoder.__init__].
  rewrite Eo. cbn [EncoderContext.pos EncoderContext.tag Encoder.length].
  replace (0 + len s - 0) with (len s) by lia.
  rewrite El. change (chr 2) with (@Ok str [x02]).
  unfold Encoder.emit, Encoder.done. cbn [fst Encoder.r].
  rewrite !join_cons. unfold join. simpl. rewrite app_nil_r. reflexivity.
Qed.

(** [next_INTEGER] on such an element whose content starts with a byte with
    the high bit clear returns the value of the content. *)
Lemma next_INTEGER_spec (bl b : byte) (rest : str) :
  byte_val bl = len (b :: rest) -> byte_val bl < 0x80 -> byte_val b < 128 ->
  fst (Buf.next_INTEGER None None
         (Buf.__init__ (x02 :: bl :: b :: rest) None None)) =
    Ok (Some (twos_complement (b :: rest))).
Proof.
  intros Hbl Hshort Hb.
  pose proof (len_nonneg rest) as Hrest.
  set (d := x02 :: bl :: b :: rest).
  assert (Hd : len d = 3 + len rest) by (unfold d; rewrite !len_cons; lia).
  unfold Buf.next_INTEGER, Buf.check, bind, lift, ret. rewrite TAG_INTEGER.
  unfold d at 1. rewrite pop_byte_first. fold d.
  change (byte_val x02 =? 2) with true. cbn [negb].
  rewrite (get_length_short_form _ (Buf.mk d 2 (len d)) (byte_val bl)).
  2:{ apply (pop_byte_at [x02] (b :: rest) bl (len d));
      change (len [x02]) with 1; change ([x02] ++ bl :: b :: rest) with d; lia. }
  2:{ exact Hshort. }
  unfold Buf.get_integer, bind, ret.
  destruct (Z.eqb_spec (byte_val bl) 0) as [E0|_]; [rewrite len_cons in Hbl; lia|].
  pose proof (pop_byte_at [x02; bl] rest b (len d)) as Hpop.
  change ([x02; bl] ++ b :: rest) with d in Hpop.
  change (len [x02; bl]) with 2 in Hpop. change (2 + 1) with 3 in Hpop.
  rewrite Hpop by lia. rewrite high_bit_byte.
  destruct (Z.geb_spec (byte_val b) 128) as [|_]; [lia|].
  pose proof (get_integer_loop_spec rest [x02; bl; b] []
                (Buf.fuel_of (Buf.mk d 3 (len d))) (byte_val b) (len d)) as Hloop.
  rewrite app_nil_r in Hloop.
  change ([x02; bl; b] ++ rest) with d in Hloop.
  change (len [x02; bl; b]) with 3 in Hloop.
  replace (byte_val bl - 1) with (len rest) by (rewrite len_cons in Hbl; lia).
  rewrite Hloop.
  - cbn [Buf.is_not_None_and fst]. unfold twos_complement.
    destruct (Z.geb_spec (byte_val b) 128); [lia | reflexivity].
  - unfold Buf.fuel_of. cbn [Buf.pos Buf.end_]. unfold len in *. lia.
  - lia.
  - lia.
Qed.

(** Encoding a non-negative integer [n] as an INTEGER element
    ([emit_INTEGER(n)], then [done()]) yields exactly the tag byte [0x02], one
    length byte holding the length of the content, and the content [s] that
    [emit_integer(n)] emits, which is the minimal two's-complement encoding
    of [n]; and [next_INTEGER()] on these bytes returns [n] (contents shorter
    than 128 bytes). *)
Theorem INTEGER_round_trip_nonneg (n : Z) (s : str) :
  0 <= n -> encode_integer n = Ok s -> len s < 0x80 ->
  exists bl,
    byte_val bl = len s /\
    twos_complement s = n /\ minimal s = true /\
    fst ((emit_INTEGER n ;;; Encoder.done) Encoder.__init__) =
      Ok (x02 :: bl :: s) /\
    fst (Buf.next_INTEGER None None (Buf.__init__ (x02 :: bl :: s) None None)) =
      Ok (Some n).
Proof.
  intros Hn E Hs.
  destruct (emit_INTEGER_spec n s E Hs) as (bl & Hbl & Etlv).
  destruct (encode_integer_spec n) as (s' & E' & Hval & Hmin).
  rewrite E in E'. injection E' as <-.
  exists bl. split; [exact Hbl|]. split; [exact Hval|]. split; [exact Hmin|].
  split; [exact Etlv|].
  destruct s as [|b rest]; [discriminate|].
  rewrite next_INTEGER_spec, Hval; try reflexivity; try lia.
  apply (proj1 (twos_complement_sign b rest)). lia.
Qed.

Lemma INTEGER_round_trip_nonneg_witness :
  exists bl,
    byte_val bl = len [x00; xff; xff] /\
    twos_complement [x00; xff; xff] = 65535 /\ minimal [x00; xff; xff] = true /\
    fst ((emit_INTEGER 65535 ;;; Encoder.done) Encoder.__init__) =
      Ok [x02; bl; x00; xff; xff] /\
    fst (Buf.next_INTEGER None None
           (Buf.__init__ [x02; bl; x00; xff; xff] None None)) =
      Ok (Some 65535).
Proof.
  apply (INTEGER_round_trip_nonneg 65535 [x00; xff; xff]).
  - lia.
  - reflexivity.
  - unfold len. simpl. lia.
Defined.

(** ** The length codec, summed up *)

(** What [get_length] does on a reader in its invariant with a byte left,
    by the first byte [b]: below [0x80] it returns [b]; [0x80] raises
    [IndefiniteLength]; above, more than four length bytes raise
    [ElementTooLarge], and one to four length bytes are never decoded: the
    cursor runs to [end] and [Underflow] is raised. *)
Theorem get_length_spec (self : Buf.t) :
  reader_inv self -> Buf.pos self < Buf.end_ self ->
  exists b,
    nth_error (Buf.data self) (Z.to_nat (Buf.pos self)) = Some b /\
    Buf.get_length self =
      if byte_val b <? 0x80 then
        (Ok (byte_val b), Buf.set_pos self (Buf.pos self + 1))
      else if byte_val b =? 0x80 then
        (Raise IndefiniteLength, Buf.set_pos self (Buf.pos self + 1))
      else if Z.land (byte_val b) 0x7f >? 4 then
        (Raise ElementTooLarge, Buf.set_pos self (Buf.pos self + 1))
      else
        (Raise Underflow, Buf.set_pos self (Buf.end_ self)).
Proof.
  intros Hinv Hlt.
  destruct (pop_byte_in_range self Hinv Hlt) as (b & Hb & E).
  exists b. split; [exact Hb|].
  destruct (Z.ltb_spec (byte_val b) 0x80).
  - apply (get_length_short_form _ _ _ E). assumption.
  - destruct (Z.eqb_spec (byte_val b) 0x80) as [E80|N80].
    + rewrite E80 in E. apply (get_length_indefinite _ _ E).
    + destruct (Z.gtb_spec (Z.land (byte_val b) 0x7f) 4).
      * apply (get_length_too_large _ _ _ E); lia.
      * apply (get_length_long_form _ _ _ Hinv E); lia.
Qed.

Lemma get_length_spec_witness :
  exists b,
    nth_error [xaa; x84; x00; x00; x01; x00] 1 = Some b /\
    Buf.get_length (Buf.mk [xaa; x84; x00; x00; x01; x00] 1 6) =
      if byte_val b <? 0x80 then
        (Ok (byte_val b), Buf.mk [xaa; x84; x00; x00; x01; x00] 2 6)
      else if byte_val b =? 0x80 then
        (Raise IndefiniteLength, Buf.mk [xaa; x84; x00; x00; x01; x00] 2 6)
      else if Z.land (byte_val b) 0x7f >? 4 then
        (Raise ElementTooLarge, Buf.mk [xaa; x84; x00; x00; x01; x00] 2 6)
      else
        (Raise Underflow, Buf.mk [xaa; x84; x00; x00; x01; x00] 6 6).
Proof.
  apply (get_length_spec (Buf.mk [xaa; x84; x00; x00; x01; x00] 1 6)).
  - unfold reader_inv, len. simpl. lia.
  - simpl. lia.
Defined.

Lemma length_round_trip_short_witness :
  exists b,
    byte_val b = 127 /\ encode_length 127 = Ok [b] /\ decode_length [b] = Ok 127.
Proof. apply (length_round_trip_short 127). lia. Defined.

Lemma length_round_trip_long_witness :
  exists s e, encode_length 4294967295 = Ok s /\ decode_length s = Raise e.
Proof. apply (length_round_trip_long 4294967295). lia. Defined.

(** * Further properties of the reader *)

(** ** Readers by what they have left to read *)

Lemma remaining_eq (self : Buf.t) :
  reader_inv self ->
  remaining self =
    firstn (Z.to_nat (Buf.end_ self) - Z.to_nat (Buf.pos self))
      (skipn (Z.to_nat (Buf.pos self)) (Buf.data self)).
Proof.
  intros (H0 & H1 & H2). unfold remaining.
  replace (Buf.end_ self) with (Buf.pos self + (Buf.end_ self - Buf.pos self)) at 1 by lia.
  rewrite slice_in_range by lia. f_equal. lia.
Qed.

Lemma reader_at_inv (pre rem post : str) : reader_inv (reader_at pre rem post).
Proof.
  unfold reader_inv, reader_at. cbn [Buf.data Buf.pos Buf.end_].
  rewrite !len_app.
  pose proof (len_nonneg pre). pose proof (len_nonneg rem).
  pose proof (len_nonneg post). lia.
Qed.

Lemma remaining_reader_at (pre rem post : str) :
  remaining (reader_at pre rem post) = rem.
Proof.
  rewrite remaining_eq by apply reader_at_inv.
  unfold reader_at. cbn [Buf.data Buf.pos Buf.end_].
  pose proof (len_nonneg pre). pose proof (len_nonneg rem).
  replace (Z.to_nat (len pre)) with (List.length pre)
    by (unfold len; rewrite Nat2Z.id; reflexivity).
  replace (Z.to_nat (len pre + len rem) - List.length pre)%nat
    with (List.length rem) by (unfold len; lia).
  rewrite skipn_app, Nat.sub_diag, skipn_all. cbn [skipn app].
  rewrite firstn_app, Nat.sub_diag, firstn_all. cbn [firstn].
  apply app_nil_r.
Qed.

(** Every reader in its invariant is a [reader_at]. *)
Lemma reader_canonical (self : Buf.t) :
  reader_inv self ->
  exists pre post, self = reader_at pre (remaining self) post.
Proof.
  intros Hinv. pose proof Hinv as (H0 & H1 & H2).
  exists (firstn (Z.to_nat (Buf.pos self)) (Buf.data self)),
         (skipn (Z.to_nat (Buf.end_ self)) (Buf.data self)).
  rewrite remaining_eq by exact Hinv.
  destruct self as [d p e]. cbn [Buf.data Buf.pos Buf.end_] in *.
  unfold reader_at. unfold len in H2.
  f_equal.
  - rewrite <- (firstn_skipn (Z.to_nat p) d) at 1. f_equal.
    rewrite <- (firstn_skipn (Z.to_nat e - Z.to_nat p) (skipn (Z.to_nat p) d)) at 1.
    f_equal. rewrite skipn_skipn. f_equal. lia.
  - unfold len. rewrite length_firstn. lia.
  - unfold len. rewrite !length_firstn, length_skipn. lia.
Qed.

Lemma reader_at_snoc (pre : str) (b : byte) (rem post : str) :
  reader_at (pre ++ [b]) rem post =
  Buf.set_pos (reader_at pre (b :: rem) post) (len pre + 1).
Proof.
  unfold reader_at, Buf.set_pos. cbn [Buf.data Buf.pos Buf.end_].
  rewrite <- app_assoc, len_app. change (len [b]) with 1.
  rewrite len_cons. f_equal; first [reflexivity | lia].
Qed.

Lemma reader_at_app (pre a rem post : str) :
  reader_at (pre ++ a) rem post =
  Buf.set_pos (reader_at pre (a ++ rem) post) (len pre + len a).
Proof.
  unfold reader_at, Buf.set_pos. cbn [Buf.data Buf.pos Buf.end_].
  rewrite <- !app_assoc, !len_app. f_equal; first [reflexivity | lia].
Qed.

Lemma pop_byte_reader_at (pre : str) (b : byte) (rem post : str) :
  Buf.pop_byte (reader_at pre (b :: rem) post) =
    (Ok (byte_val b), reader_at (pre ++ [b]) rem post).
Proof.
  rewrite reader_at_snoc. unfold reader_at.
  pose proof (len_nonneg rem).
  rewrite (pop_byte_at pre (rem ++ post) b).
  - reflexivity.
  - rewrite len_cons. lia.
  - rewrite !len_app, !len_cons, len_app. pose proof (len_nonneg post). lia.
Qed.

Lemma pop_byte_reader_at_end (pre post : str) :
  Buf.pop_byte (reader_at pre [] post) = (Raise Underflow, reader_at pre [] post).
Proof.
  apply pop_byte_underflow. unfold reader_at. cbn [Buf.pos Buf.end_].
  change (len []) with 0. lia.
Qed.

Lemma pop_reader_at (pre a rem post : str) :
  Buf.pop (len a) (reader_at pre (a ++ rem) post) =
    (Ok (reader_at pre a (rem ++ post)), reader_at (pre ++ a) rem post).
Proof.
  rewrite reader_at_app, pop_in_range.
  - unfold reader_at. cbn [Buf.data Buf.pos Buf.end_].
    rewrite <- !app_assoc. reflexivity.
  - unfold reader_at. cbn [Buf.pos Buf.end_]. rewrite len_app.
    pose proof (len_nonneg rem). lia.
Qed.

Lemma pop_bytes_reader_at (pre a rem post : str) :
  Buf.pop_bytes (len a) (reader_at pre (a ++ rem) post) =
    (Ok a, reader_at (pre ++ a) rem post).
Proof.
  rewrite reader_at_app, pop_bytes_in_range.
  - f_equal. f_equal.
    pose proof (remaining_reader_at pre a (rem ++ post)) as H.
    unfold remaining, reader_at in H. cbn [Buf.data Buf.pos Buf.end_] in H.
    unfold reader_at. cbn [Buf.data Buf.pos Buf.end_].
    rewrite <- app_assoc. exact H.
  - unfold reader_at. cbn [Buf.pos Buf.end_]. rewrite len_app.
    pose proof (len_nonneg rem). lia.
Qed.

(** Asking for more than is left. *)
Lemma pop_reader_at_short (n : Z) (pre rem post : str) :
  len rem < n ->
  Buf.pop n (reader_at pre rem post) = (Raise Underflow, reader_at pre rem post) /\
  Buf.pop_bytes n (reader_at pre rem post) = (Raise Underflow, reader_at pre rem post).
Proof.
  intros H. split; [apply pop_underflow | apply pop_bytes_underflow];
    unfold reader_at; cbn [Buf.pos Buf.end_]; lia.
Qed.

Lemma get_length_reader_at (pre : str) (l : byte) (rem post : str) :
  byte_val l < 0x80 ->
  Buf.get_length (reader_at pre (l :: rem) post) =
    (Ok (byte_val l), reader_at (pre ++ [l]) rem post).
Proof.
  intros Hl. apply get_length_short_form; [apply pop_byte_reader_at | exact Hl].
Qed.

Lemma check_reader_at (expected : Z) (pre : str) (b : byte) (rem post : str) :
  Buf.check expected (reader_at pre (b :: rem) post) =
    (if byte_val b =? expected then Ok tt else Raise UnexpectedType,
     reader_at (pre ++ [b]) rem post).
Proof.
  unfold Buf.check, bind. rewrite pop_byte_reader_at.
  destruct (byte_val b =? expected); reflexivity.
Qed.

Lemma get_integer_loop_reader_at (bs pre rem post : str) (fuel : nat) (acc : Z) :
  (List.length bs <= fuel)%nat ->
  Buf.get_integer_loop fuel (len bs) acc (reader_at pre (bs ++ rem) post) =
    (Ok (fold_left (fun a c => a * 256 + byte_val c) bs acc),
     reader_at (pre ++ bs) rem post).
Proof.
  intros Hfuel. rewrite reader_at_app. unfold reader_at, Buf.set_pos.
  cbn [Buf.data Buf.pos Buf.end_]. rewrite <- !app_assoc.
  apply get_integer_loop_spec.
  - exact Hfuel.
  - rewrite len_app. pose proof (len_nonneg rem). lia.
  - rewrite !len_app. pose proof (len_nonneg post). lia.
Qed.

Lemma get_integer_reader_at (pre : str) (b : byte) (bs rem post : str) :
  Buf.get_integer (len (b :: bs)) (reader_at pre (b :: bs ++ rem) post) =
    if byte_val b <? 128 then
      (Ok (Some (unsigned_be (b :: bs))), reader_at (pre ++ b :: bs) rem post)
    else
      (Ok None, reader_at (pre ++ [b]) (bs ++ rem) post).
Proof.
  pose proof (len_nonneg bs) as Hbs.
  unfold Buf.get_integer, bind.
  destruct (Z.eqb_spec (len (b :: bs)) 0) as [E|_]; [rewrite len_cons in E; lia|].
  rewrite pop_byte_reader_at, high_bit_byte.
  destruct (Z.geb_spec (byte_val b) 128) as [Hhi|Hlo];
    destruct (Z.ltb_spec (byte_val b) 128); try lia; [reflexivity|].
  replace (len (b :: bs) - 1) with (len bs) by (rewrite len_cons; lia).
  rewrite get_integer_loop_reader_at.
  - unfold ret. rewrite <- app_assoc. reflexivity.
  - unfold Buf.fuel_of, reader_at. cbn [Buf.pos Buf.end_].
    rewrite !len_app. unfold len. lia.
Qed.

(** ** [check] *)

(** [check] reads one byte: on an exhausted reader it raises [Underflow] and
    leaves the reader alone; otherwise the byte is consumed whether it is the
    expected tag or not, and [UnexpectedType] is raised when it is not. *)
Theorem check_consumes_tag (expected : Z) (self : Buf.t) :
  reader_inv self ->
  match remaining self with
  | [] => Buf.check expected self = (Raise Underflow, self)
  | b :: rest =>
      exists self',
        Buf.check expected self =
          (if byte_val b =? expected then Ok tt else Raise UnexpectedType, self') /\
        reader_inv self' /\ remaining self' = rest
  end.
Proof.
  intros Hinv. destruct (reader_canonical self Hinv) as (pre & post & Hself).
  destruct (remaining self) as [|b rest]; rewrite Hself.
  - unfold Buf.check, bind. rewrite pop_byte_reader_at_end. reflexivity.
  - exists (reader_at (pre ++ [b]) rest post).
    split; [apply check_reader_at|].
    split; [apply reader_at_inv | apply remaining_reader_at].
Qed.

Lemma check_consumes_tag_witness :
  exists self',
    Buf.check 0x30 (Buf.mk [xaa; x02; x01; x05; xbb] 1 4) =
      (if byte_val x02 =? 0x30 then Ok tt else Raise UnexpectedType, self') /\
    reader_inv self' /\ remaining self' = [x01; x05].
Proof.
  apply (check_consumes_tag 0x30 (Buf.mk [xaa; x02; x01; x05; xbb] 1 4)).
  unfold reader_inv, len. simpl. lia.
Defined.

(** ** [next] *)

(** [next] on an element with a short-form length: the sub-reader it returns
    shares the backing string and has exactly the content left to read, and
    the reader itself stands after the element. *)
Theorem next_returns_content (t l : byte) (content rest : str) (self : Buf.t) :
  reader_inv self ->
  remaining self = t :: l :: content ++ rest ->
  byte_val l = len content -> byte_val l < 0x80 ->
  exists r self',
    Buf.next (byte_val t) self = (Ok r, self') /\
    Buf.data r = Buf.data self /\ reader_inv r /\ remaining r = content /\
    reader_inv self' /\ remaining self' = rest.
Proof.
  intros Hinv Hrem Hl Hshort.
  destruct (reader_canonical self Hinv) as (pre & post & Hself).
  rewrite Hrem in Hself. subst self.
  exists (reader_at (pre ++ [t; l]) content (rest ++ post)),
         (reader_at ((pre ++ [t; l]) ++ content) rest post).
  split.
  - unfold Buf.next, bind. rewrite check_reader_at, Z.eqb_refl.
    rewrite get_length_reader_at by exact Hshort.
    rewrite Hl, <- (app_assoc pre [t] [l]). apply pop_reader_at.
  - split.
    + unfold reader_at. cbn [Buf.data]. reassoc. reflexivity.
    + split; [apply reader_at_inv|]. split; [apply remaining_reader_at|].
      split; [apply reader_at_inv | apply remaining_reader_at].
Qed.

Lemma next_returns_content_witness :
  exists r self',
    Buf.next (byte_val x30) (Buf.mk [x30; x02; x01; x02; x05; x00] 0 6) = (Ok r, self') /\
    Buf.data r = [x30; x02; x01; x02; x05; x00] /\ reader_inv r /\
    remaining r = [x01; x02] /\
    reader_inv self' /\ remaining self' = [x05; x00].
Proof.
  apply (next_returns_content x30 x02 [x01; x02] [x05; x00]
           (Buf.mk [x30; x02; x01; x02; x05; x00] 0 6)).
  - unfold reader_inv, len. simpl. lia.
  - reflexivity.
  - reflexivity.
  - reflexivity.
Defined.

(** An element whose content is cut short: [next] and [next_OCTET_STRING]
    raise [Underflow], and the tag and the length byte have been consumed
    (the reader stands at the start of the content). *)
Theorem truncated_element_underflow (t l : byte) (short : str) (self : Buf.t) :
  reader_inv self ->
  remaining self = t :: l :: short ->
  len short < byte_val l -> byte_val l < 0x80 ->
  exists self',
    reader_inv self' /\ remaining self' = short /\
    Buf.next (byte_val t) self = (Raise Underflow, self') /\
    (byte_val t = 0x04 ->
     forall min max, Buf.next_OCTET_STRING min max self = (Raise Underflow, self')).
Proof.
  intros Hinv Hrem Hlt Hshort.
  destruct (reader_canonical self Hinv) as (pre & post & Hself).
  rewrite Hrem in Hself. subst self.
  exists (reader_at (pre ++ [t; l]) short post).
  split; [apply reader_at_inv|]. split; [apply remaining_reader_at|].
  destruct (pop_reader_at_short (byte_val l) (pre ++ [t; l]) short post Hlt)
    as [Hpop Hpopb].
  split.
  - unfold Buf.next, bind. rewrite check_reader_at, Z.eqb_refl.
    rewrite get_length_reader_at by exact Hshort.
    rewrite <- (app_assoc pre [t] [l]). cbn [app]. rewrite Hpop. reflexivity.
  - intros Ht min max. unfold Buf.next_OCTET_STRING, bind, lift.
    rewrite TAG_OCTETSTRING, check_reader_at, Ht. cbn [Z.eqb Pos.eqb].
    rewrite get_length_reader_at by exact Hshort.
    rewrite <- (app_assoc pre [t] [l]). cbn [app]. rewrite Hpopb. reflexivity.
Qed.

Lemma truncated_element_underflow_witness :
  exists self',
    reader_inv self' /\ remaining self' = [xaa; xbb] /\
    Buf.next (byte_val x04) (Buf.mk [x04; x03; xaa; xbb] 0 4) = (Raise Underflow, self') /\
    (byte_val x04 = 0x04 ->
     forall min max,
       Buf.next_OCTET_STRING min max (Buf.mk [x04; x03; xaa; xbb] 0 4) =
         (Raise Underflow, self')).
Proof.
  apply (truncated_element_underflow x04 x03 [xaa; xbb]
           (Buf.mk [x04; x03; xaa; xbb] 0 4)).
  - unfold reader_inv, len. simpl. lia.
  - reflexivity.
  - reflexivity.
  - reflexivity.
Defined.

(** ** [get_integer], [next_ENUMERATED], [next_OCTET_STRING], [next_BOOLEAN] *)

(** [get_integer(length)] with [length >= 1] bytes left to read: when the
    first byte has the high bit clear, the [length] bytes are consumed and
    their big-endian value is returned; when it is set, [None] is returned
    and only that first byte is consumed. *)
Theorem get_integer_spec (b : byte) (bs rest : str) (self : Buf.t) :
  reader_inv self ->
  remaining self = b :: bs ++ rest ->
  exists self',
    Buf.get_integer (len (b :: bs)) self =
      (Ok (if byte_val b <? 128 then Some (unsigned_be (b :: bs)) else None), self') /\
    reader_inv self' /\
    remaining self' = if byte_val b <? 128 then rest else bs ++ rest.
Proof.
  intros Hinv Hrem.
  destruct (reader_canonical self Hinv) as (pre & post & Hself).
  rewrite Hrem in Hself. subst self.
  rewrite get_integer_reader_at.
  destruct (byte_val b <? 128); eexists;
    (split; [reflexivity|]);
    (split; [apply reader_at_inv | apply remaining_reader_at]).
Qed.

Lemma get_integer_spec_witness :
  exists self',
    Buf.get_integer (len [x01; x00]) (Buf.mk [x02; x02; x01; x00; xff] 2 5) =
      (Ok (if byte_val x01 <? 128 then Some (unsigned_be [x01; x00]) else None), self') /\
    reader_inv self' /\
    remaining self' = if byte_val x01 <? 128 then [xff] else [x00] ++ [xff].
Proof.
  apply (get_integer_spec x01 [x00] [xff] (Buf.mk [x02; x02; x01; x00; xff] 2 5)).
  - unfold reader_inv, len. simpl. lia.
  - reflexivity.
Defined.

Lemma TAG_ENUMERATED : getattr TAG "ENUMERATED" = Ok 0x0A.
Proof. reflexivity. Qed.

Lemma TAG_BOOLEAN : getattr TAG "BOOLEAN" = Ok 0x01.
Proof. reflexivity. Qed.

(** [next_ENUMERATED] on an ENUMERATED element with a short-form length:
    a content whose first byte has the high bit clear is returned as its
    big-endian value and the reader stands after the element; on a content
    whose first byte has the high bit set, [None] is returned and the reader
    stands after that first byte. *)
Theorem next_ENUMERATED_spec (l b : byte) (bs rest : str) (self : Buf.t) :
  reader_inv self ->
  remaining self = x0a :: l :: b :: bs ++ rest ->
  byte_val l = len (b :: bs) -> byte_val l < 0x80 ->
  exists self',
    Buf.next_ENUMERATED self =
      (Ok (if byte_val b <? 128 then Some (unsigned_be (b :: bs)) else None), self') /\
    reader_inv self' /\
    remaining self' = if byte_val b <? 128 then rest else bs ++ rest.
Proof.
  intros Hinv Hrem Hl Hshort.
  destruct (reader_canonical self Hinv) as (pre & post & Hself).
  rewrite Hrem in Hself. subst self.
  unfold Buf.next_ENUMERATED, bind, lift.
  rewrite TAG_ENUMERATED, check_reader_at. change (byte_val x0a =? 10) with true.
  cbn iota. rewrite get_length_reader_at by exact Hshort.
  rewrite Hl, get_integer_reader_at.
  destruct (byte_val b <? 128); eexists;
    (split; [reflexivity|]);
    (split; [apply reader_at_inv | apply remaining_reader_at]).
Qed.

Lemma next_ENUMERATED_spec_witness :
  exists self',
    Buf.next_ENUMERATED (Buf.mk [x0a; x01; x03; x05] 0 4) =
      (Ok (if byte_val x03 <? 128 then Some (unsigned_be [x03]) else None), self') /\
    reader_inv self' /\
    remaining self' = if byte_val x03 <? 128 then [x05] else [] ++ [x05].
Proof.
  apply (next_ENUMERATED_spec x01 x03 [] [x05] (Buf.mk [x0a; x01; x03; x05] 0 4)).
  - unfold reader_inv, len. simpl. lia.
  - reflexivity.
  - reflexivity.
  - reflexivity.
Defined.

(** [next_OCTET_STRING] without bounds on an OCTET STRING element with a
    short-form length returns the content and leaves the reader after the
    element. *)
Theorem next_OCTET_STRING_spec (l : byte) (content rest : str) (self : Buf.t) :
  reader_inv self ->
  remaining self = x04 :: l :: content ++ rest ->
  byte_val l = len content -> byte_val l < 0x80 ->
  exists self',
    Buf.next_OCTET_STRING None None self = (Ok content, self') /\
    reader_inv self' /\ remaining self' = rest.
Proof.
  intros Hinv Hrem Hl Hshort.
  destruct (reader_canonical self Hinv) as (pre & post & Hself).
  rewrite Hrem in Hself. subst self.
  unfold Buf.next_OCTET_STRING, bind, lift.
  rewrite TAG_OCTETSTRING, check_reader_at. change (byte_val x04 =? 4) with true.
  cbn iota. rewrite get_length_reader_at by exact Hshort.
  rewrite Hl, pop_bytes_reader_at. cbn [Buf.is_not_None_and].
  eexists. split; [reflexivity|].
  split; [apply reader_at_inv | apply remaining_reader_at].
Qed.

Lemma next_OCTET_STRING_spec_witness :
  exists self',
    Buf.next_OCTET_STRING None None (Buf.mk [x04; x02; xaa; xbb; x05] 0 5) =
      (Ok [xaa; xbb], self') /\
    reader_inv self' /\ remaining self' = [x05].
Proof.
  apply (next_OCTET_STRING_spec x02 [xaa; xbb] [x05]
           (Buf.mk [x04; x02; xaa; xbb; x05] 0 5)).
  - unfold reader_inv, len. simpl. lia.
  - reflexivity.
  - reflexivity.
  - reflexivity.
Defined.

Lemma next_BOOLEAN_reader_at (pre : str) (v : byte) (rest post : str) :
  Buf.next_BOOLEAN (reader_at pre (x01 :: v :: rest) post) =
    (Ok (negb (byte_val v =? 0)), reader_at (pre ++ [x01; v]) rest post).
Proof.
  unfold Buf.next_BOOLEAN, bind, lift.
  rewrite TAG_BOOLEAN, check_reader_at. change (byte_val x01 =? 1) with true.
  cbn iota. rewrite pop_byte_reader_at. unfold ret.
  rewrite <- app_assoc. reflexivity.
Qed.

(** [next_BOOLEAN] reads no length: its result says whether the byte right
    after the tag is non-zero, and two bytes are consumed.  On a BOOLEAN
    element as BER writes it (tag [0x01], length [0x01], value [v]) it
    therefore returns [True] whatever [v] is, and leaves [v] unread. *)
Theorem next_BOOLEAN_reads_no_length (v : byte) (rest : str) (self : Buf.t) :
  reader_inv self ->
  (remaining self = x01 :: v :: rest ->
   exists self',
     Buf.next_BOOLEAN self = (Ok (negb (byte_val v =? 0)), self') /\
     reader_inv self' /\ remaining self' = rest) /\
  (remaining self = x01 :: x01 :: v :: rest ->
   exists self',
     Buf.next_BOOLEAN self = (Ok true, self') /\
     reader_inv self' /\ remaining self' = v :: rest).
Proof.
  intros Hinv.
  destruct (reader_canonical self Hinv) as (pre & post & Hself).
  split; intros Hrem; rewrite Hrem in Hself; subst self;
    rewrite next_BOOLEAN_reader_at; eexists;
    (split; [reflexivity|]);
    (split; [apply reader_at_inv | apply remaining_reader_at]).
Qed.

Lemma next_BOOLEAN_reads_no_length_witness :
  exists self',
    Buf.next_BOOLEAN (Buf.mk [x01; x01; x00] 0 3) = (Ok true, self') /\
    reader_inv self' /\ remaining self' = [x00].
Proof.
  apply (proj2 (next_BOOLEAN_reads_no_length x00 [] (Buf.mk [x01; x01; x00] 0 3)
                  ltac:(unfold reader_inv, len; simpl; lia))).
  reflexivity.
Defined.

(** ** The reader invariant through every method *)

Lemma advances_refl (self : Buf.t) : advances self self.
Proof. unfold advances. repeat split; lia. Qed.

Lemma advances_trans (s1 s2 s3 : Buf.t) :
  advances s1 s2 -> advances s2 s3 -> advances s1 s3.
Proof.
  unfold advances. intros (D1 & E1 & P1) (D2 & E2 & P2).
  repeat split; [congruence | congruence | lia].
Qed.

Lemma keeps_ret {A : Type} (Q : A -> Prop) (a : A) : Q a -> keeps Q (ret a).
Proof.
  intros HQ self Hinv. cbn. split; [exact Hinv|]. split; [apply advances_refl|].
  intros a' E. injection E as <-. exact HQ.
Qed.

Lemma keeps_raise {A : Type} (Q : A -> Prop) (e : exn) : keeps Q (raise e).
Proof.
  intros self Hinv. cbn. split; [exact Hinv|]. split; [apply advances_refl|].
  discriminate.
Qed.

Lemma keeps_lift {A : Type} (Q : A -> Prop) (o : outcome A) :
  (forall a, o = Ok a -> Q a) -> keeps Q (lift o).
Proof.
  intros HQ self Hinv. cbn. split; [exact Hinv|]. split; [apply advances_refl|].
  exact HQ.
Qed.

Lemma keeps_bind {A B : Type} (Q : A -> Prop) (R : B -> Prop)
  (m : M Buf.t A) (k : A -> M Buf.t B) :
  keeps Q m -> (forall a, Q a -> keeps R (k a)) -> keeps R (bind m k).
Proof.
  intros Hm Hk self Hinv. unfold bind.
  destruct (Hm self Hinv) as (I1 & A1 & Q1).
  destruct (m self) as [[a|e|] s1]; cbn [fst snd] in *.
  - destruct (Hk a (Q1 a eq_refl) s1 I1) as (I2 & A2 & Q2).
    split; [exact I2|]. split; [exact (advances_trans _ _ _ A1 A2) | exact Q2].
  - split; [exact I1|]. split; [exact A1 | discriminate].
  - split; [exact I1|]. split; [exact A1 | discriminate].
Qed.

Lemma keeps_weaken {A : Type} (Q R : A -> Prop) (m : M Buf.t A) :
  (forall a, Q a -> R a) -> keeps Q m -> keeps R m.
Proof.
  intros HQR Hm self Hinv. destruct (Hm self Hinv) as (I & Ad & HQ).
  split; [exact I|]. split; [exact Ad|]. intros a E. apply HQR, HQ, E.
Qed.

Lemma keeps_pop_byte : keeps (fun v => 0 <= v < 256) Buf.pop_byte.
Proof.
  intros self Hinv.
  destruct (pop_byte_cases self) as [(v & -> & Hlt & Hv)|(e & ->)]; cbn [fst snd].
  - split; [apply reader_inv_advance; [exact Hinv | lia | lia]|].
    split; [unfold advances; cbn; repeat split; lia|].
    intros a E. injection E as <-. exact Hv.
  - split; [exact Hinv|]. split; [apply advances_refl | discriminate].
Qed.

Lemma keeps_pop (n : Z) :
  0 <= n -> keeps (fun r => reader_inv r /\ Buf.end_ r - Buf.pos r = n) (Buf.pop n).
Proof.
  intros Hn self Hinv.
  destruct (Z.le_gt_cases (Buf.pos self + n) (Buf.end_ self)) as [Hle|Hgt].
  - rewrite pop_in_range by exact Hle. cbn [fst snd].
    split; [apply reader_inv_advance; assumption|].
    split; [unfold advances; cbn; repeat split; lia|].
    intros a E. injection E as <-. destruct Hinv as (H0 & H1 & H2).
    unfold reader_inv. cbn. lia.
  - rewrite pop_underflow by lia. cbn [fst snd].
    split; [exact Hinv|]. split; [apply advances_refl | discriminate].
Qed.

Lemma keeps_pop_bytes (n : Z) :
  0 <= n -> keeps (fun s => len s = n) (Buf.pop_bytes n).
Proof.
  intros Hn self Hinv.
  destruct (Z.le_gt_cases (Buf.pos self + n) (Buf.end_ self)) as [Hle|Hgt].
  - rewrite pop_bytes_in_range by exact Hle. cbn [fst snd].
    split; [apply reader_inv_advance; assumption|].
    split; [unfold advances; cbn; repeat split; lia|].
    intros a E. injection E as <-. destruct Hinv as (H0 & H1 & H2).
    rewrite slice_in_range by lia.
    unfold len in *. rewrite length_firstn, length_skipn. lia.
  - rewrite pop_bytes_underflow by lia. cbn [fst snd].
    split; [exact Hinv|]. split; [apply advances_refl | discriminate].
Qed.

(** The loop of [get_length] returns only if it is not entered. *)
Lemma keeps_get_length_loop (fuel : nat) (lol n : Z) :
  keeps (fun _ => lol = 0) (Buf.get_length_loop fuel lol n).
Proof.
  revert n. induction fuel as [|fuel IH]; intros n self Hinv;
    cbn [Buf.get_length_loop]; unfold truthy;
    destruct (Z.eqb_spec lol 0) as [E|E]; cbn [negb].
  - apply (keeps_ret _ n E self Hinv).
  - cbn [fst snd]. split; [exact Hinv|]. split; [apply advances_refl | discriminate].
  - apply (keeps_ret _ n E self Hinv).
  - apply (keeps_bind (fun v => 0 <= v < 256)); [apply keeps_pop_byte | | exact Hinv].
    intros b _. apply IH.
Qed.

Lemma keeps_get_length : keeps (fun v => 0 <= v < 0x80) Buf.get_length.
Proof.
  unfold Buf.get_length.
  apply (keeps_bind (fun v => 0 <= v < 256)); [apply keeps_pop_byte|].
  intros v Hv.
  destruct (Z.ltb_spec v 0x80); [apply keeps_ret; lia|].
  destruct (Z.eqb_spec v 0x80); [apply keeps_raise|].
  destruct (Z.land v 0x7f >? 4); [apply keeps_raise|].
  intros self Hinv.
  destruct (keeps_get_length_loop (Buf.fuel_of self) (Z.land v 0x7f) 0 self Hinv)
    as (I & Ad & HQ).
  split; [exact I|]. split; [exact Ad|].
  intros a E. apply HQ in E. rewrite land_0x7f in E.
  pose proof (Z.div_mod v 128). pose proof (Z.mod_pos_bound v 128). lia.
Qed.

Lemma keeps_check (expected : Z) : keeps (fun _ => True) (Buf.check expected).
Proof.
  unfold Buf.check.
  apply (keeps_bind (fun v => 0 <= v < 256)); [apply keeps_pop_byte|].
  intros tag _. destruct (negb (tag =? expected));
    [apply keeps_raise | apply keeps_ret; exact I].
Qed.

Lemma keeps_next (expected : Z) :
  keeps (fun r => reader_inv r /\ Buf.end_ r - Buf.pos r < 0x80) (Buf.next expected).
Proof.
  unfold Buf.next.
  apply (keeps_bind (fun _ => True)); [apply keeps_check|]. intros _ _.
  apply (keeps_bind (fun v => 0 <= v < 0x80)); [apply keeps_get_length|].
  intros length Hl.
  apply (keeps_weaken (fun r => reader_inv r /\ Buf.end_ r - Buf.pos r = length));
    [|apply keeps_pop; lia].
  intros r (Hr & E). split; [exact Hr | lia].
Qed.

Lemma keeps_get_integer_loop (fuel : nat) (length n : Z) :
  0 <= n -> keeps (fun v => 0 <= v) (Buf.get_integer_loop fuel length n).
Proof.
  revert length n. induction fuel as [|fuel IH]; intros length n Hn self Hinv;
    cbn [Buf.get_integer_loop]; destruct (truthy length).
  - cbn [fst snd]. split; [exact Hinv|]. split; [apply advances_refl | discriminate].
  - apply (keeps_ret _ n Hn self Hinv).
  - apply (keeps_bind (fun v => 0 <= v < 256)); [apply keeps_pop_byte | | exact Hinv].
    intros b Hb. apply IH. rewrite lor_shiftl_8 by exact Hb. lia.
  - apply (keeps_ret _ n Hn self Hinv).
Qed.

Lemma keeps_get_integer (length : Z) :
  keeps (fun r => forall v, r = Some v -> 0 <= v) (Buf.get_integer length).
Proof.
  unfold Buf.get_integer.
  destruct (length =? 0).
  - apply keeps_ret. intros v E. injection E as <-. lia.
  - apply (keeps_bind (fun v => 0 <= v < 256)); [apply keeps_pop_byte|].
    intros n Hn. destruct (truthy (Z.land n 0x80)).
    + apply keeps_ret. discriminate.
    + intros self Hinv.
      apply (keeps_bind (fun v => 0 <= v)
               (fun r => forall v, r = Some v -> 0 <= v)
               (Buf.get_integer_loop (Buf.fuel_of self) (length - 1) n)
               (fun n0 => ret (Some n0))).
      * apply keeps_get_integer_loop. lia.
      * intros a Ha. apply keeps_ret. intros v E. injection E as <-. exact Ha.
      * exact Hinv.
Qed.

Lemma keeps_next_INTEGER (min_val max_val : option Z) :
  keeps (fun r => forall v, r = Some v -> 0 <= v)
    (Buf.next_INTEGER min_val max_val).
Proof.
  unfold Buf.next_INTEGER.
  apply (keeps_bind (fun _ => True)); [apply keeps_lift; trivial|]. intros tag _.
  apply (keeps_bind (fun _ => True)); [apply keeps_check|]. intros _ _.
  apply (keeps_bind (fun v => 0 <= v < 0x80)); [apply keeps_get_length|].
  intros length _.
  apply (keeps_bind (fun r => forall v, r = Some v -> 0 <= v));
    [apply keeps_get_integer|].
  intros r Hr.
  destruct (Buf.is_not_None_and min_val (Buf.py_lt r)); [apply keeps_raise|].
  destruct (Buf.is_not_None_and max_val (Buf.py_gt r)); [apply keeps_raise|].
  apply keeps_ret, Hr.
Qed.

Lemma keeps_next_OCTET_STRING (min_size max_size : option Z) :
  keeps (fun s => len s < 0x80) (Buf.next_OCTET_STRING min_size max_size).
Proof.
  unfold Buf.next_OCTET_STRING.
  apply (keeps_bind (fun _ => True)); [apply keeps_lift; trivial|]. intros tag _.
  apply (keeps_bind (fun _ => True)); [apply keeps_check|]. intros _ _.
  apply (keeps_bind (fun v => 0 <= v < 0x80)); [apply keeps_get_length|].
  intros length Hl.
  apply (keeps_bind (fun s => len s = length)); [apply keeps_pop_bytes; lia|].
  intros r Hr.
  destruct (Buf.is_not_None_and min_size _); [apply keeps_raise|].
  destruct (Buf.is_not_None_and max_size _); [apply keeps_raise|].
  apply keeps_ret. lia.
Qed.

Lemma keeps_next_BOOLEAN : keeps (fun _ => True) Buf.next_BOOLEAN.
Proof.
  unfold Buf.next_BOOLEAN.
  apply (keeps_bind (fun _ => True)); [apply keeps_lift; trivial|]. intros tag _.
  apply (keeps_bind (fun _ => True)); [apply keeps_check|]. intros _ _.
  apply (keeps_bind (fun v => 0 <= v < 256)); [apply keeps_pop_byte|].
  intros b _. apply keeps_ret. exact I.
Qed.

Lemma keeps_next_ENUMERATED :
  keeps (fun r => forall v, r = Some v -> 0 <= v) Buf.next_ENUMERATED.
Proof.
  unfold Buf.next_ENUMERATED.
  apply (keeps_bind (fun _ => True)); [apply keeps_lift; trivial|]. intros tag _.
  apply (keeps_bind (fun _ => True)); [apply keeps_check|]. intros _ _.
  apply (keeps_bind (fun v => 0 <= v < 0x80)); [apply keeps_get_length|].
  intros length _. apply keeps_get_integer.
Qed.

Lemma keeps_next_APPLICATION : keeps (fun _ => False) Buf.next_APPLICATION.
Proof.
  unfold Buf.next_APPLICATION.
  apply (keeps_bind (fun v => 0 <= v < 256)); [apply keeps_pop_byte|].
  intros tag _.
  apply (keeps_bind (fun _ => False)); [apply keeps_lift; discriminate|].
  intros flag [].
Qed.

(** Every decoding method, on a reader with [0 <= pos <= end <= len(data)],
    leaves a reader with the same backing string and the same bound, a cursor
    that did not move backwards, and the invariant again; whether the method
    returns or raises.  [pop] and [pop_bytes] are taken with [n >= 0]. *)
Theorem reader_invariant_kept :
  keeps (fun _ => True) Buf.pop_byte /\
  (forall n, 0 <= n -> keeps (fun _ => True) (Buf.pop n)) /\
  (forall n, 0 <= n -> keeps (fun _ => True) (Buf.pop_bytes n)) /\
  keeps (fun _ => True) Buf.get_length /\
  (forall expected, keeps (fun _ => True) (Buf.check expected)) /\
  (forall expected, keeps (fun _ => True) (Buf.next expected)) /\
  (forall length, keeps (fun _ => True) (Buf.get_integer length)) /\
  (forall min_val max_val, keeps (fun _ => True) (Buf.next_INTEGER min_val max_val)) /\
  (forall min_size max_size,
     keeps (fun _ => True) (Buf.next_OCTET_STRING min_size max_size)) /\
  keeps (fun _ => True) Buf.next_BOOLEAN /\
  keeps (fun _ => True) Buf.next_ENUMERATED /\
  keeps (fun _ => True) Buf.next_APPLICATION.
Proof.
  repeat apply conj; intros;
    first
      [ eapply keeps_weaken; [|apply keeps_pop_byte]; trivial
      | eapply keeps_weaken; [|apply keeps_pop; assumption]; trivial
      | eapply keeps_weaken; [|apply keeps_pop_bytes; assumption]; trivial
      | eapply keeps_weaken; [|apply keeps_get_length]; trivial
      | apply keeps_check
      | eapply keeps_weaken; [|apply keeps_next]; trivial
      | eapply keeps_weaken; [|apply keeps_get_integer]; trivial
      | eapply keeps_weaken; [|apply keeps_next_INTEGER]; trivial
      | eapply keeps_weaken; [|apply keeps_next_OCTET_STRING]; trivial
      | apply keeps_next_BOOLEAN
      | eapply keeps_weaken; [|apply keeps_next_ENUMERATED]; trivial
      | eapply keeps_weaken; [|apply keeps_next_APPLICATION]; trivial ].
Qed.

Lemma reader_invariant_kept_witness :
  reader_inv (snd (Buf.next 0x30 (Buf.mk [x30; x02; x05] 0 3))) /\
  advances (Buf.mk [x30; x02; x05] 0 3)
    (snd (Buf.next 0x30 (Buf.mk [x30; x02; x05] 0 3))).
Proof.
  destruct reader_invariant_kept as (_ & _ & _ & _ & _ & Hnext & _).
  destruct (Hnext 0x30 (Buf.mk [x30; x02; x05] 0 3)) as (Hinv & Hadv & _).
  - unfold reader_inv, len. simpl. lia.
  - split; [exact Hinv | exact Hadv].
Defined.

(** What the reader can return at all.  [get_length] only returns lengths
    below [0x80]; so the sub-reader of [next] spans fewer than 128 bytes and
    a string returned by [next_OCTET_STRING] has fewer than 128 bytes.
    [get_integer], [next_INTEGER] and [next_ENUMERATED] never return a
    negative integer. *)
Theorem decoded_values_bounded (self self' : Buf.t) :
  reader_inv self ->
  (forall v, Buf.get_length self = (Ok v, self') -> 0 <= v < 0x80) /\
  (forall expected r,
     Buf.next expected self = (Ok r, self') ->
     reader_inv r /\ Buf.end_ r - Buf.pos r < 0x80) /\
  (forall min_size max_size s,
     Buf.next_OCTET_STRING min_size max_size self = (Ok s, self') ->
     len s < 0x80) /\
  (forall length v,
     Buf.get_integer length self = (Ok (Some v), self') -> 0 <= v) /\
  (forall min_val max_val v,
     Buf.next_INTEGER min_val max_val self = (Ok (Some v), self') -> 0 <= v) /\
  (forall v, Buf.next_ENUMERATED self = (Ok (Some v), self') -> 0 <= v).
Proof.
  intros Hinv.
  split; [|split; [|split; [|split; [|split]]]].
  - intros v E.
    destruct (keeps_get_length self Hinv) as (_ & _ & HQ).
    apply HQ. rewrite E. reflexivity.
  - intros expected r E.
    destruct (keeps_next expected self Hinv) as (_ & _ & HQ).
    apply HQ. rewrite E. reflexivity.
  - intros min_size max_size s E.
    destruct (keeps_next_OCTET_STRING min_size max_size self Hinv) as (_ & _ & HQ).
    apply HQ. rewrite E. reflexivity.
  - intros length v E.
    destruct (keeps_get_integer length self Hinv) as (_ & _ & HQ).
    apply (HQ (Some v)); [rewrite E|]; reflexivity.
  - intros min_val max_val v E.
    destruct (keeps_next_INTEGER min_val max_val self Hinv) as (_ & _ & HQ).
    apply (HQ (Some v)); [rewrite E|]; reflexivity.
  - intros v E.
    destruct (keeps_next_ENUMERATED self Hinv) as (_ & _ & HQ).
    apply (HQ (Some v)); [rewrite E|]; reflexivity.
Qed.

Lemma decoded_values_bounded_witness :
  Buf.get_length (Buf.mk [x7f] 0 1) = (Ok 0x7f, Buf.mk [x7f] 1 1) /\
  0 <= 0x7f < 0x80 /\
  Buf.get_integer 1 (Buf.mk [x7f] 0 1) = (Ok (Some 127), Buf.mk [x7f] 1 1) /\
  0 <= 127.
Proof.
  destruct (decoded_values_bounded (Buf.mk [x7f] 0 1) (Buf.mk [x7f] 1 1))
    as (Hlen & _ & _ & Hint & _).
  - unfold reader_inv, len. simpl. lia.
  - split; [reflexivity|]. split; [apply Hlen; reflexivity|].
    split; [reflexivity|]. apply (Hint 1). reflexivity.
Defined.

(** * Further properties of the writer *)

Lemma join_app (a b : list str) : join (a ++ b) = join a ++ join b.
Proof. unfold join. apply concat_app. Qed.

Lemma sum_len_nonneg (chunks : list str) : 0 <= sum_len chunks.
Proof.
  induction chunks as [|c chunks IH]; simpl; [lia|].
  pose proof (len_nonneg c). lia.
Qed.

Lemma sum_len_join (chunks : list str) : sum_len chunks = len (join chunks).
Proof.
  induction chunks as [|c chunks IH]; [reflexivity|].
  rewrite join_cons, len_app, <- IH. reflexivity.
Qed.

Lemma sum_len_cons (c : str) (chunks : list str) :
  sum_len (c :: chunks) = len c + sum_len chunks.
Proof. reflexivity. Qed.

Lemma sum_len_app (a b : list str) : sum_len (a ++ b) = sum_len a + sum_len b.
Proof.
  induction a as [|c a IH]; [reflexivity|].
  cbn [app]. rewrite !sum_len_cons, IH. lia.
Qed.

Lemma sum_len_rev (chunks : list str) : sum_len (rev chunks) = sum_len chunks.
Proof.
  induction chunks as [|c chunks IH]; [reflexivity|].
  cbn [rev]. rewrite sum_len_app, !sum_len_cons, IH.
  change (sum_len []) with 0. lia.
Qed.

Lemma emit_all_spec (chunks : list str) (self : Encoder.t) :
  emit_all chunks self =
    (Ok tt, Encoder.mk (rev chunks ++ Encoder.r self)
              (Encoder.length self + sum_len chunks)).
Proof.
  revert self. induction chunks as [|c chunks IH]; intros self.
  - destruct self as [r l]. cbn. rewrite Z.add_0_r. reflexivity.
  - cbn [emit_all]. unfold bind. cbn [Encoder.emit]. rewrite IH.
    cbn [Encoder.r Encoder.length rev].
    rewrite <- app_assoc, sum_len_cons. cbn [app]. do 2 f_equal. lia.
Qed.

(** Chunks emitted one after the other are stored newest first: [done()]
    after emitting [c1 ... cn] on a writer is [cn ++ ... ++ c1] followed by
    what the writer held before, and the invariant is kept. *)
Theorem emitted_chunks_are_reversed (chunks : list str) (self : Encoder.t) :
  fst ((emit_all chunks ;;; Encoder.done) self) =
    Ok (join (rev chunks) ++ join (Encoder.r self)) /\
  (writer_inv self -> writer_inv (snd (emit_all chunks self))).
Proof.
  split.
  - unfold bind. rewrite emit_all_spec. cbn [Encoder.done fst Encoder.r].
    rewrite join_app. reflexivity.
  - intros Hinv. rewrite emit_all_spec. unfold writer_inv in *.
    cbn [snd Encoder.r Encoder.length].
    rewrite Hinv, sum_len_app, sum_len_rev. lia.
Qed.

(** ** [emit_length] *)

(** [emit_length(n)]: a negative [n] raises the error of [chr(n)] and emits
    nothing: [ValueError] for [-2^31 <= n < 0], [OverflowError] for
    [n < -2^63], and one of the two in between (which one depends on the
    width of the C [long]); [n < 0x80] is emitted as the one byte [n];
    [n >= 0x80] is emitted as one chunk, a first byte
    [0x80 | ((n - 1) & 0x7f)] followed by the big-endian bytes of [n] without
    a leading zero byte. *)
Theorem emit_length_spec (n : Z) (self : Encoder.t) :
  (n < 0 ->
   (-2 ^ 31 <= n -> Encoder.emit_length n self = (Raise ValueError, self)) /\
   (n < -2 ^ 63 -> Encoder.emit_length n self = (Raise OverflowError, self)) /\
   exists e,
     (e = ValueError \/ e = OverflowError) /\
     Encoder.emit_length n self = (Raise e, self)) /\
  (0 <= n < 0x80 ->
   exists b,
     byte_val b = n /\
     Encoder.emit_length n self =
       (Ok tt, Encoder.mk ([b] :: Encoder.r self) (Encoder.length self + 1))) /\
  (0x80 <= n ->
   exists b0 b1 bs,
     byte_val b0 = Z.lor 0x80 (Z.land (n - 1) 0x7f) /\
     unsigned_be (b1 :: bs) = n /\ byte_val b1 <> 0 /\
     Encoder.emit_length n self =
       (Ok tt, Encoder.mk ((b0 :: b1 :: bs) :: Encoder.r self)
                 (Encoder.length self + len (b0 :: b1 :: bs)))).
Proof.
  split.
  { intros Hneg. rewrite (emit_length_negative n self Hneg).
    change (2 ^ 31) with 2147483648. change (2 ^ 63) with 9223372036854775808.
    split; [|split].
    - intros Hfit. rewrite fits_long; [reflexivity|].
      unfold LONG_MIN, LONG_MAX. lia.
    - intros Hbig. destruct (Z.leb_spec LONG_MIN n) as [Hle|_]; [|reflexivity].
      unfold LONG_MIN in Hle. lia.
    - destruct ((LONG_MIN <=? n) && (n <=? LONG_MAX)); eexists; split;
        [left| |right|]; reflexivity. }
  split; [apply emit_length_short|].
  intros Hn.
  destruct (emit_length_long n self Hn) as (b0 & b1 & bs & Hb0 & Hval & Hb1 & E).
  exists b0, b1, bs. split; [|repeat split; assumption].
  rewrite Hb0, land_0x7f, lor_0x80; [reflexivity|].
  apply Z.mod_pos_bound. lia.
Qed.

Lemma emit_length_spec_witness :
  Encoder.emit_length (-1) Encoder.__init__ = (Raise ValueError, Encoder.__init__) /\
  Encoder.emit_length (- 2 ^ 64) Encoder.__init__ =
    (Raise OverflowError, Encoder.__init__) /\
  exists b0 b1 bs,
    byte_val b0 = Z.lor 0x80 (Z.land (300 - 1) 0x7f) /\
    unsigned_be (b1 :: bs) = 300 /\ byte_val b1 <> 0 /\
    Encoder.emit_length 300 Encoder.__init__ =
      (Ok tt, Encoder.mk ((b0 :: b1 :: bs) :: Encoder.r Encoder.__init__)
                (Encoder.length Encoder.__init__ + len (b0 :: b1 :: bs))).
Proof.
  split; [|split].
  - apply (proj1 (emit_length_spec (-1) Encoder.__init__)); [lia|].
    change (2 ^ 31) with 2147483648. lia.
  - apply (proj1 (emit_length_spec (- 2 ^ 64) Encoder.__init__)).
    + change (2 ^ 64) with 18446744073709551616. lia.
    + change (2 ^ 64) with 18446744073709551616.
      change (2 ^ 63) with 9223372036854775808. lia.
  - apply (proj2 (proj2 (emit_length_spec 300 Encoder.__init__))). lia.
Defined.

(** ** The TLV scope on normal exit, and the reader on what it wrote *)

Lemma with_TLV_ok {A : Type} (tag : Z) (body : M Encoder.t A)
  (self self1 : Encoder.t) (v : A) :
  body self = (Ok v, self1) ->
  0 <= tag < 256 ->
  0 <= Encoder.length self1 - Encoder.length self < 0x80 ->
  exists t l,
    byte_val t = tag /\
    byte_val l = Encoder.length self1 - Encoder.length self /\
    with_ (TLV tag) body self =
      (Ok v, Encoder.mk ([t] :: [l] :: Encoder.r self1)
               (Encoder.length self1 + 1 + 1)).
Proof.
  intros Hbody Htag Hlen.
  destruct (emit_length_short _ self1 Hlen) as (l & Hl & El).
  destruct (chr_in_range tag Htag) as (t & Et & Ht).
  exists t, l. split; [exact Ht|]. split; [exact Hl|].
  unfold with_, TLV, EncoderContext.__init__, EncoderContext.__enter__,
    EncoderContext.__exit__, bind, ret, lift.
  rewrite Hbody. cbn [EncoderContext.pos EncoderContext.tag].
  rewrite El, Et. reflexivity.
Qed.

(** A TLV scope whose body returns, having put the chunks [new] (fewer than
    128 bytes in all) in front of the writer's chunks: the scope puts the
    tag byte and one length byte, the number of bytes of [new], in front of
    them, so that [done()] reads tag, length, content, and then what the
    writer held before the scope; the invariant is kept. *)
Theorem TLV_scope_frames_content {A : Type} (tag : Z) (body : M Encoder.t A)
  (self self1 : Encoder.t) (v : A) (new : list str) :
  writer_inv self -> writer_inv self1 ->
  body self = (Ok v, self1) ->
  Encoder.r self1 = new ++ Encoder.r self ->
  0 <= tag < 256 -> sum_len new < 0x80 ->
  exists t l,
    byte_val t = tag /\ byte_val l = sum_len new /\
    fst ((with_ (TLV tag) body ;;; Encoder.done) self) =
      Ok (t :: l :: join new ++ join (Encoder.r self)) /\
    writer_inv (snd (with_ (TLV tag) body self)).
Proof.
  intros Hinv Hinv1 Hbody Hr Htag Hshort.
  assert (Hlen : Encoder.length self1 - Encoder.length self = sum_len new).
  { unfold writer_inv in *. rewrite Hinv, Hinv1, Hr, sum_len_app. lia. }
  destruct (with_TLV_ok tag body self self1 v Hbody Htag) as (t & l & Ht & Hl & E).
  { rewrite Hlen. pose proof (sum_len_nonneg new). lia. }
  exists t, l. split; [exact Ht|]. split; [congruence|]. split.
  - unfold bind. rewrite E. cbn [Encoder.done fst Encoder.r].
    rewrite !join_cons, Hr, join_app. reflexivity.
  - rewrite E. unfold writer_inv in *. cbn [snd Encoder.r Encoder.length].
    rewrite !sum_len_cons, <- Hinv1. change (len [t]) with 1.
    change (len [l]) with 1. lia.
Qed.

Lemma TLV_scope_frames_content_witness :
  exists t l,
    byte_val t = 0x30 /\ byte_val l = sum_len [[xbb]; [xaa]] /\
    fst ((with_ (TLV 0x30) (Encoder.emit [xaa] ;;; Encoder.emit [xbb]) ;;; Encoder.done)
           (Encoder.mk [[xff]] 1)) =
      Ok (t :: l :: join [[xbb]; [xaa]] ++ join [[xff]]) /\
    writer_inv (snd (with_ (TLV 0x30) (Encoder.emit [xaa] ;;; Encoder.emit [xbb])
                       (Encoder.mk [[xff]] 1))).
Proof.
  apply (TLV_scope_frames_content 0x30 (Encoder.emit [xaa] ;;; Encoder.emit [xbb])
           (Encoder.mk [[xff]] 1) (Encoder.mk [[xbb]; [xaa]; [xff]] 3) tt
           [[xbb]; [xaa]]).
  - reflexivity.
  - reflexivity.
  - reflexivity.
  - reflexivity.
  - lia.
  - reflexivity.
Defined.

Lemma init_reader_at (s : str) : Buf.__init__ s None None = reader_at [] s [].
Proof.
  unfold Buf.__init__, reader_at. cbn [app]. rewrite app_nil_r. reflexivity.
Qed.

Lemma done_reader_at_end (pre post : str) :
  fst (Buf.done (reader_at pre [] post)) = Ok true.
Proof.
  unfold Buf.done, reader_at. cbn [fst Buf.pos Buf.end_].
  change (len []) with 0. rewrite Z.add_0_r, Z.eqb_refl. reflexivity.
Qed.

(** The writer's TLV scope and the reader's [next] are inverse to each other
    on contents of fewer than 128 bytes: what a fresh writer produces for a
    scope with tag [tag] around [emit(content)] is read back by [next(tag)]
    as a sub-reader with exactly [content] left, after which the reader is
    [done()]; for the OCTET STRING tag, [next_OCTET_STRING] returns
    [content]. *)
Theorem TLV_round_trip (tag : byte) (content : str) :
  len content < 0x80 ->
  exists s r self',
    fst ((with_ (TLV (byte_val tag)) (Encoder.emit content) ;;; Encoder.done)
           Encoder.__init__) = Ok s /\
    Buf.next (byte_val tag) (Buf.__init__ s None None) = (Ok r, self') /\
    reader_inv r /\ remaining r = content /\
    fst (Buf.done self') = Ok true /\
    (byte_val tag = 0x04 ->
     fst (Buf.next_OCTET_STRING None None (Buf.__init__ s None None)) = Ok content).
Proof.
  intros Hshort. pose proof (len_nonneg content) as Hnn.
  destruct (with_TLV_ok (byte_val tag) (Encoder.emit content) Encoder.__init__
              (Encoder.mk [content] (0 + len content)) tt eq_refl
              (byte_val_range tag))
    as (t & l & Ht & Hl & E).
  { cbn [Encoder.length Encoder.__init__]. lia. }
  cbn [Encoder.length Encoder.__init__] in Hl.
  assert (t = tag).
  { pose proof (chr_byte_val t) as H1. pose proof (chr_byte_val tag) as H2.
    rewrite Ht in H1. congruence. }
  subst t.
  exists (tag :: l :: content),
         (reader_at [tag; l] content []),
         (reader_at ([tag; l] ++ content) [] []).
  split.
  { unfold bind. rewrite E. cbn [Encoder.done fst Encoder.r].
    rewrite !join_cons. unfold join. cbn [concat app].
    rewrite app_nil_r. reflexivity. }
  rewrite init_reader_at.
  assert (Hl' : byte_val l = len content) by lia.
  assert (Hl80 : byte_val l < 0x80) by lia.
  split.
  { unfold Buf.next, bind.
    rewrite check_reader_at, Z.eqb_refl.
    rewrite get_length_reader_at by exact Hl80.
    rewrite Hl'. cbn [app].
    pose proof (pop_reader_at [tag; l] content [] []) as Hpop.
    rewrite app_nil_r in Hpop. exact Hpop. }
  split; [apply reader_at_inv|].
  split; [apply remaining_reader_at|].
  split; [apply done_reader_at_end|].
  intros H04. unfold Buf.next_OCTET_STRING, bind, lift.
  rewrite TAG_OCTETSTRING, check_reader_at, H04. cbn [Z.eqb Pos.eqb].
  rewrite get_length_reader_at by exact Hl80.
  rewrite Hl'. cbn [app].
  pose proof (pop_bytes_reader_at [tag; l] content [] []) as Hpop.
  rewrite app_nil_r in Hpop. rewrite Hpop. reflexivity.
Qed.

Lemma TLV_round_trip_witness :
  exists s r self',
    fst ((with_ (TLV (byte_val x04)) (Encoder.emit [xde; xad]) ;;; Encoder.done)
           Encoder.__init__) = Ok s /\
    Buf.next (byte_val x04) (Buf.__init__ s None None) = (Ok r, self') /\
    reader_inv r /\ remaining r = [xde; xad] /\
    fst (Buf.done self') = Ok true /\
    (byte_val x04 = 0x04 ->
     fst (Buf.next_OCTET_STRING None None (Buf.__init__ s None None)) =
       Ok [xde; xad]).
Proof. apply (TLV_round_trip x04 [xde; xad]). reflexivity. Defined.

Lemma byte_of_val (t : byte) (z : Z) (b : byte) :
  byte_val t = z -> chr z = Ok [b] -> t = b.
Proof.
  intros Ht Hc. pose proof (chr_byte_val t) as H. rewrite Ht in H. congruence.
Qed.

Lemma unsigned_be_twos_complement (b : byte) (bs : str) :
  byte_val b < 128 -> unsigned_be (b :: bs) = twos_complement (b :: bs).
Proof.
  intros Hb. rewrite twos_complement_cons, unsigned_be_cons.
  destruct (Z.geb_spec (byte_val b) 128); [lia | reflexivity].
Qed.

Lemma next_INTEGER_reader_at (pre : str) (l b : byte) (bs rem post : str) :
  byte_val l = len (b :: bs) -> byte_val l < 0x80 -> byte_val b < 128 ->
  Buf.next_INTEGER None None (reader_at pre (x02 :: l :: b :: bs ++ rem) post) =
    (Ok (Some (unsigned_be (b :: bs))),
     reader_at (((pre ++ [x02]) ++ [l]) ++ b :: bs) rem post).
Proof.
  intros Hl Hshort Hb.
  unfold Buf.next_INTEGER, bind, lift.
  rewrite TAG_INTEGER, check_reader_at. change (byte_val x02 =? 2) with true.
  cbn iota. rewrite get_length_reader_at by exact Hshort.
  rewrite Hl, get_integer_reader_at.
  destruct (Z.ltb_spec (byte_val b) 128); [reflexivity | lia].
Qed.

(** An INTEGER inside a SEQUENCE, written by nested scopes and read by
    descent: for [n >= 0] and a content of fewer than 126 bytes, a scope with
    the SEQUENCE tag [0x30] around [emit_INTEGER(n)] produces bytes on which
    [next(0x30)] returns a sub-reader, [next_INTEGER] on the sub-reader
    returns [n] and exhausts it, and the outer reader is [done()]. *)
Theorem nested_INTEGER_round_trip (n : Z) (s : str) :
  0 <= n -> encode_integer n = Ok s -> len s + 2 < 0x80 ->
  exists bytes r self' r',
    fst ((with_ (TLV 0x30) (emit_INTEGER n) ;;; Encoder.done) Encoder.__init__) =
      Ok bytes /\
    Buf.next 0x30 (Buf.__init__ bytes None None) = (Ok r, self') /\
    Buf.next_INTEGER None None r = (Ok (Some n), r') /\
    fst (Buf.done r') = Ok true /\ fst (Buf.done self') = Ok true.
Proof.
  intros Hn E Hshort. pose proof (len_nonneg s) as Hnn.
  destruct (emit_integer_spec n Encoder.__init__) as (out & Eo & Hval & Hmin).
  rewrite (encode_integer_eq _ _ _ Eo) in E. injection E as ->.
  cbn [Encoder.r Encoder.length Encoder.__init__] in Eo.
  destruct s as [|b bs]; [discriminate|].
  assert (Hb : byte_val b < 128)
    by (apply (proj1 (twos_complement_sign b bs)); lia).
  (* the inner scope *)
  destruct (with_TLV_ok 0x02 (Encoder.emit_integer n) Encoder.__init__ _ tt Eo)
    as (t1 & l1 & Ht1 & Hl1 & E1); [lia | cbn [Encoder.length Encoder.__init__]; lia|].
  cbn [Encoder.length Encoder.__init__ Encoder.r] in Hl1, E1.
  assert (t1 = x02) by (apply (byte_of_val _ _ _ Ht1); reflexivity). subst t1.
  assert (E1' : emit_INTEGER n Encoder.__init__ =
                (Ok tt, Encoder.mk [[x02]; [l1]; b :: bs] (0 + len (b :: bs) + 1 + 1))).
  { unfold emit_INTEGER, bind, lift. rewrite TAG_INTEGER. exact E1. }
  (* the outer scope *)
  destruct (with_TLV_ok 0x30 (emit_INTEGER n) Encoder.__init__ _ tt E1')
    as (t2 & l2 & Ht2 & Hl2 & E2); [lia | cbn [Encoder.length Encoder.__init__]; lia|].
  cbn [Encoder.length Encoder.__init__ Encoder.r] in Hl2, E2.
  assert (t2 = x30) by (apply (byte_of_val _ _ _ Ht2); reflexivity). subst t2.
  exists (x30 :: l2 :: x02 :: l1 :: b :: bs),
         (reader_at [x30; l2] (x02 :: l1 :: b :: bs) []),
         (reader_at ([x30; l2] ++ x02 :: l1 :: b :: bs) [] []),
         (reader_at ((([x30; l2] ++ [x02]) ++ [l1]) ++ b :: bs) [] []).
  split.
  { unfold bind. rewrite E2. cbn [Encoder.done fst Encoder.r].
    rewrite !join_cons. unfold join. cbn [concat app].
    rewrite app_nil_r. reflexivity. }
  rewrite init_reader_at.
  assert (Hlen2 : byte_val l2 = len (x02 :: l1 :: b :: bs))
    by (rewrite (len_cons x02), (len_cons l1); lia).
  split.
  { unfold Buf.next, bind.
    rewrite check_reader_at. change (byte_val x30 =? 48) with true. cbn iota.
    rewrite get_length_reader_at by lia.
    rewrite Hlen2. cbn [app].
    pose proof (pop_reader_at [x30; l2] (x02 :: l1 :: b :: bs) [] []) as Hpop.
    rewrite app_nil_r in Hpop. exact Hpop. }
  split.
  { pose proof (next_INTEGER_reader_at [x30; l2] l1 b bs [] []) as Hdec.
    rewrite app_nil_r in Hdec.
    rewrite Hdec by lia.
    rewrite unsigned_be_twos_complement, Hval by exact Hb. reflexivity. }
  split; apply done_reader_at_end.
Qed.

Lemma nested_INTEGER_round_trip_witness :
  exists bytes r self' r',
    fst ((with_ (TLV 0x30) (emit_INTEGER 300) ;;; Encoder.done) Encoder.__init__) =
      Ok bytes /\
    Buf.next 0x30 (Buf.__init__ bytes None None) = (Ok r, self') /\
    Buf.next_INTEGER None None r = (Ok (Some 300), r') /\
    fst (Buf.done r') = Ok true /\ fst (Buf.done self') = Ok true.
Proof.
  apply (nested_INTEGER_round_trip 300 [x01; x2c]).
  - lia.
  - reflexivity.
  - reflexivity.
Defined.

(** ** The size of an integer's encoding *)

Lemma twos_complement_range (b : byte) (rest : str) :
  - 128 * 256 ^ len rest <= twos_complement (b :: rest) < 128 * 256 ^ len rest.
Proof.
  rewrite twos_complement_cons.
  pose proof (unsigned_be_range rest) as Hu.
  pose proof (byte_val_range b) as Hb.
  destruct (Z.geb_spec (byte_val b) 128); nia.
Qed.

Lemma minimal_out_of_range (b0 b1 : byte) (rest : str) :
  minimal (b0 :: b1 :: rest) = true ->
  ~ (- 128 * 256 ^ len rest <= twos_complement (b0 :: b1 :: rest)
     < 128 * 256 ^ len rest).
Proof.
  cbn [minimal redundant_lead]. intros Hmin.
  rewrite twos_complement_cons, unsigned_be_cons, pow_len_cons.
  pose proof (unsigned_be_range rest) as Hu.
  pose proof (byte_val_range b0) as Hb0.
  pose proof (byte_val_range b1) as Hb1.
  assert (HP : 0 < 256 ^ len rest) by (apply Z.pow_pos_nonneg; [lia | apply len_nonneg]).
  apply negb_true_iff, orb_false_iff in Hmin. destruct Hmin as [H1 H2].
  apply andb_false_iff in H1. apply andb_false_iff in H2.
  destruct (Z.geb_spec (byte_val b0) 128) as [Hhi|Hlo].
  - destruct H2 as [H2|H2].
    + apply Z.eqb_neq in H2. nia.
    + destruct (Z.geb_spec (byte_val b1) 128); [discriminate|]. nia.
  - destruct H1 as [H1|H1].
    + apply Z.eqb_neq in H1. nia.
    + apply Z.ltb_ge in H1. nia.
Qed.

(** The number of bytes [emit_integer(n)] emits is the least [k >= 1] with
    [-2^(8k-1) <= n < 2^(8k-1)]: the encoding has [k] bytes or fewer exactly
    when [n] fits in [k] bytes of two's complement. *)
Theorem encode_integer_length (n k : Z) (s : str) :
  encode_integer n = Ok s -> 1 <= k ->
  (len s <= k <-> - 128 * 256 ^ (k - 1) <= n < 128 * 256 ^ (k - 1)).
Proof.
  intros E Hk.
  destruct (emit_integer_spec n Encoder.__init__) as (out & Eo & Hval & Hmin).
  rewrite (encode_integer_eq _ _ _ Eo) in E. injection E as ->.
  destruct s as [|b0 rest]; [discriminate|].
  pose proof (len_nonneg rest) as Hrest.
  rewrite len_cons. subst n. split.
  - intros Hle.
    pose proof (twos_complement_range b0 rest) as Hr.
    assert (Hmono : 256 ^ len rest <= 256 ^ (k - 1))
      by (apply Z.pow_le_mono_r; lia).
    lia.
  - intros Hfit.
    destruct (Z.le_gt_cases (1 + len rest) k) as [|Hgt]; [assumption|].
    exfalso. destruct rest as [|b1 rest']; [change (len []) with 0 in Hgt; lia|].
    rewrite len_cons in Hgt. pose proof (len_nonneg rest') as Hrest'.
    apply (minimal_out_of_range b0 b1 rest' Hmin).
    assert (Hmono : 256 ^ (k - 1) <= 256 ^ len rest')
      by (apply Z.pow_le_mono_r; lia).
    lia.
Qed.

Lemma encode_integer_length_witness :
  len [x80; x00; x00; x00] <= 4 <->
  - 128 * 256 ^ (4 - 1) <= -2147483648 < 128 * 256 ^ (4 - 1).
Proof.
  apply (encode_integer_length (-2147483648) 4 [x80; x00; x00; x00]).
  - reflexivity.
  - lia.
Defined.

(** ** Tag mismatch *)

(** With a byte left that is not the tag a method expects, [next],
    [next_INTEGER], [next_OCTET_STRING], [next_BOOLEAN] and
    [next_ENUMERATED] raise [UnexpectedType]; the byte has been consumed. *)
Theorem wrong_tag_raises_UnexpectedType (b : byte) (rest : str) (self : Buf.t) :
  reader_inv self ->
  remaining self = b :: rest ->
  exists self',
    reader_inv self' /\ remaining self' = rest /\
    (forall expected, byte_val b <> expected ->
       Buf.next expected self = (Raise UnexpectedType, self')) /\
    (byte_val b <> 0x02 -> forall min_val max_val,
       Buf.next_INTEGER min_val max_val self = (Raise UnexpectedType, self')) /\
    (byte_val b <> 0x04 -> forall min_size max_size,
       Buf.next_OCTET_STRING min_size max_size self = (Raise UnexpectedType, self')) /\
    (byte_val b <> 0x01 ->
       Buf.next_BOOLEAN self = (Raise UnexpectedType, self')) /\
    (byte_val b <> 0x0A ->
       Buf.next_ENUMERATED self = (Raise UnexpectedType, self')).
Proof.
  intros Hinv Hrem.
  destruct (reader_canonical self Hinv) as (pre & post & Hself).
  rewrite Hrem in Hself. subst self.
  exists (reader_at (pre ++ [b]) rest post).
  split; [apply reader_at_inv|]. split; [apply remaining_reader_at|].
  assert (Hcheck : forall expected, byte_val b <> expected ->
            Buf.check expected (reader_at pre (b :: rest) post) =
              (Raise UnexpectedType, reader_at (pre ++ [b]) rest post)).
  { intros expected Hne. rewrite check_reader_at.
    destruct (Z.eqb_spec (byte_val b) expected); [contradiction | reflexivity]. }
  split; [|split; [|split; [|split]]].
  - intros expected Hne. unfold Buf.next, bind. rewrite Hcheck by exact Hne. reflexivity.
  - intros Hne min_val max_val. unfold Buf.next_INTEGER, bind, lift.
    rewrite TAG_INTEGER, Hcheck by exact Hne. reflexivity.
  - intros Hne min_size max_size. unfold Buf.next_OCTET_STRING, bind, lift.
    rewrite TAG_OCTETSTRING, Hcheck by exact Hne. reflexivity.
  - intros Hne. unfold Buf.next_BOOLEAN, bind, lift.
    rewrite TAG_BOOLEAN, Hcheck by exact Hne. reflexivity.
  - intros Hne. unfold Buf.next_ENUMERATED, bind, lift.
    rewrite TAG_ENUMERATED, Hcheck by exact Hne. reflexivity.
Qed.

Lemma wrong_tag_raises_UnexpectedType_witness :
  exists self',
    reader_inv self' /\ remaining self' = [x01; x05] /\
    (forall expected, byte_val x02 <> expected ->
       Buf.next expected (Buf.mk [x02; x01; x05] 0 3) = (Raise UnexpectedType, self')) /\
    (byte_val x02 <> 0x02 -> forall min_val max_val,
       Buf.next_INTEGER min_val max_val (Buf.mk [x02; x01; x05] 0 3) =
         (Raise UnexpectedType, self')) /\
    (byte_val x02 <> 0x04 -> forall min_size max_size,
       Buf.next_OCTET_STRING min_size max_size (Buf.mk [x02; x01; x05] 0 3) =
         (Raise UnexpectedType, self')) /\
    (byte_val x02 <> 0x01 ->
       Buf.next_BOOLEAN (Buf.mk [x02; x01; x05] 0 3) = (Raise UnexpectedType, self')) /\
    (byte_val x02 <> 0x0A ->
       Buf.next_ENUMERATED (Buf.mk [x02; x01; x05] 0 3) = (Raise UnexpectedType, self')).
Proof.
  apply (wrong_tag_raises_UnexpectedType x02 [x01; x05] (Buf.mk [x02; x01; x05] 0 3)).
  - unfold reader_inv, len. simpl. lia.
  - reflexivity.
Defined.

(** ** Contents of 128 bytes or more *)

Lemma get_length_high_byte_raises (pre : str) (b0 : byte) (rem post : str) :
  0x80 <= byte_val b0 ->
  exists e self',
    Buf.get_length (reader_at pre (b0 :: rem) post) = (Raise e, self').
Proof.
  intros Hb0.
  pose proof (pop_byte_reader_at pre b0 rem post) as Hpop.
  destruct (Z.eq_dec (byte_val b0) 0x80) as [E80|N80].
  - rewrite E80 in Hpop. rewrite (get_length_indefinite _ _ Hpop).
    eexists. eexists. reflexivity.
  - destruct (Z.le_gt_cases (Z.land (byte_val b0) 0x7f) 4) as [Hle|Hgt].
    + rewrite (get_length_long_form _ _ _ (reader_at_inv _ _ _) Hpop) by lia.
      eexists. eexists. reflexivity.
    + rewrite (get_length_too_large _ _ _ Hpop) by lia.
      eexists. eexists. reflexivity.
Qed.

(** A TLV scope around a content of 128 bytes or more is written without
    error, but the reader cannot read the element back: [next] with the
    right tag raises. *)
Theorem long_content_is_not_read_back (tag : byte) (content : str) :
  0x80 <= len content ->
  exists s e self',
    fst ((with_ (TLV (byte_val tag)) (Encoder.emit content) ;;; Encoder.done)
           Encoder.__init__) = Ok s /\
    Buf.next (byte_val tag) (Buf.__init__ s None None) = (Raise e, self').
Proof.
  intros Hlong.
  destruct (emit_length_long (len content) (Encoder.mk [content] (0 + len content)) Hlong)
    as (b0 & b1 & bs & Hb0 & _ & _ & El).
  pose proof (Z.mod_pos_bound (len content - 1) 128 ltac:(lia)) as Hmod.
  destruct (get_length_high_byte_raises [tag] b0 (b1 :: bs ++ content) [])
    as (e & self' & Hget); [lia|].
  exists (tag :: b0 :: b1 :: bs ++ content), e, self'.
  split.
  - unfold with_, TLV, EncoderContext.__init__, EncoderContext.__enter__,
      EncoderContext.__exit__, bind, ret, lift.
    cbn [Encoder.emit Encoder.__init__ Encoder.r Encoder.length
         EncoderContext.pos EncoderContext.tag].
    replace (0 + len content - 0) with (len content) by lia.
    rewrite El, chr_byte_val.
    cbn [Encoder.emit Encoder.done fst Encoder.r].
    rewrite !join_cons. unfold join. cbn [concat app].
    rewrite app_nil_r. reflexivity.
  - rewrite init_reader_at. unfold Buf.next, bind.
    rewrite check_reader_at, Z.eqb_refl. cbn [app].
    rewrite Hget. reflexivity.
Qed.

Lemma long_content_is_not_read_back_witness :
  exists s e self',
    fst ((with_ (TLV (byte_val x04)) (Encoder.emit (repeat x00 128)) ;;; Encoder.done)
           Encoder.__init__) = Ok s /\
    Buf.next (byte_val x04) (Buf.__init__ s None None) = (Raise e, self').
Proof. apply (long_content_is_not_read_back x04 (repeat x00 128)). vm_compute. discriminate. Defined.

Lemma emitted_chunks_are_reversed_witness :
  fst ((emit_all [[x01]; [x02; x03]; [x04]] ;;; Encoder.done) Encoder.__init__) =
    Ok (join (rev [[x01]; [x02; x03]; [x04]]) ++ join (Encoder.r Encoder.__init__)) /\
  writer_inv (snd (emit_all [[x01]; [x02; x03]; [x04]] Encoder.__init__)).
Proof.
  destruct (emitted_chunks_are_reversed [[x01]; [x02; x03]; [x04]] Encoder.__init__)
    as [Hdone Hinv].
  split; [exact Hdone | apply Hinv; reflexivity].
Defined.
